(** * A verified model of the five-letter-word solver (wordle_solver.py)

    The Python program is embedded shallowly:
    - a [str] is the list of its Unicode code points, so indexing,
      comparison and ordering are those of Python strings;
    - an [IndexError] raised by [s[i]] is the [None] of the option monad;
    - dictionaries ([required_counts], [Counter(word)], [patterns]) are
      [gmap]s, lists updated by index use stdpp's lookup and insert;
    - the list objects that [filter_words] could alias live in a store;
    - the dictionary file is explicit state, and the answers of the player
      are the lines of an explicit input. *)

From Stdlib Require Import String Ascii.
From stdpp Require Import base option list sorting gmap.

Local Open Scope nat_scope.

(** ** Strings *)

(** A Python character is a code point; a Python [str] is their sequence. *)
Abbreviation char := N.
Abbreviation str := (list N).

(** Source literals are written in UTF-8; [utf8] decodes the one- and
    two-byte sequences (Basic Latin and Cyrillic) into code points. *)
Fixpoint utf8_bytes (bs : list N) : str :=
  match bs with
  | [] => []
  | b :: rest =>
      if (b <? 128)%N then b :: utf8_bytes rest
      else match rest with
           | c :: rest' => ((b - 192) * 64 + (c - 128))%N :: utf8_bytes rest'
           | [] => [b]
           end
  end.

Definition utf8 (s : string) : str :=
  utf8_bytes (N_of_ascii <$> list_ascii_of_string s).

(** The three feedback characters typed by the player. *)
Definition c0 : char := 48%N.
Definition c1 : char := 49%N.
Definition c2 : char := 50%N.

(** ** Loops in the exception monad *)

(** [for x in xs: s = body(x, s)], where the body may raise. *)
Fixpoint for_each {A S : Type} (body : A → S → option S) (xs : list A) (s : S)
    : option S :=
  match xs with
  | [] => Some s
  | x :: xs' => s' ← body x s; for_each body xs' s'
  end.

(** [valid = True; for i in idxs: if not check(i): valid = False; break]. *)
Fixpoint all_checks (check : nat → option bool) (idxs : list nat) : option bool :=
  match idxs with
  | [] => Some true
  | i :: rest => b ← check i; if b : bool then all_checks check rest else Some false
  end.

Definition range5 : list nat := seq 0 5.

(** ** The candidate filter: [filter_words] (lines 206-254) *)

(** [d.get(k, 0)] on a dictionary of counters. *)
Definition get0 (d : gmap char nat) (k : char) : nat := default 0 (d !! k).

(** One iteration of [for i, ch in enumerate(guess_list)] (lines 211-213). *)
Definition count_required (feedback : str) (ich : nat * char)
    (required_counts : gmap char nat) : option (gmap char nat) :=
  f ← feedback !! ich.1;
  if bool_decide (f = c1 ∨ f = c2)
  then Some (<[ich.2 := get0 required_counts ich.2 + 1]> required_counts)
  else Some required_counts.

Definition required_counts (guess feedback : str) : option (gmap char nat) :=
  for_each (count_required feedback) (imap pair guess) ∅.

(** [Counter(word)]. *)
Definition Counter (word : str) : gmap char nat :=
  foldl (λ d ch, <[ch := get0 d ch + 1]> d) ∅ word.

(** Body of the first [for i in range(5)] (lines 221-228): [false] is
    [valid = False; break]. *)
Definition position_check (word guess feedback : str) (i : nat) : option bool :=
  f ← feedback !! i;
  if decide (f = c2) then
    w ← word !! i; g ← guess !! i; Some (bool_decide (w = g))
  else if decide (f = c1) then
    w ← word !! i; g ← guess !! i; Some (bool_decide (w ≠ g))
  else Some true.

(** Body of the second loop (lines 234-237). *)
Definition presence_check (word guess feedback : str) (i : nat) : option bool :=
  f ← feedback !! i;
  if decide (f = c1) then g ← guess !! i; Some (bool_decide (g ∈ word))
  else Some true.

(** Body of the third loop (lines 244-249). *)
Definition absent_check (required_counts word_counts : gmap char nat)
    (guess feedback : str) (i : nat) : option bool :=
  f ← feedback !! i;
  if decide (f = c0) then
    letter ← guess !! i;
    let allowed := get0 required_counts letter in
    Some (negb (allowed <? get0 word_counts letter))
  else Some true.

(** The body of [for word in words] up to the decision whether [word] is
    appended (lines 216-251). *)
Definition keep_word (required_counts : gmap char nat) (guess feedback word : str)
    : option bool :=
  if decide (word = guess) then Some false else
  valid ← all_checks (position_check word guess feedback) range5;
  if negb valid then Some false else
  valid ← all_checks (presence_check word guess feedback) range5;
  if negb valid then Some false else
  all_checks (absent_check required_counts (Counter word) guess feedback) range5.

Definition filter_words (words : list str) (guess feedback : str)
    : option (list str) :=
  rc ← required_counts guess feedback;
  for_each (λ word result,
      keep ← keep_word rc guess feedback word;
      Some (if keep : bool then result ++ [word] else result))
    words [].

(** *** The same function over a store of list objects

    Python lists are mutable objects passed by reference.  Here a list
    object is a location of a store; [result = []] allocates a new object
    and [result.append(word)] updates it in place.  The iterator reads the
    object [words]; no statement of the body writes to it. *)
Abbreviation loc := nat (only parsing).

Definition filter_words_st (σ : gmap loc (list str)) (words : loc)
    (guess feedback : str) : option (gmap loc (list str) * loc) :=
  let result := fresh (dom σ) in
  let σ0 := <[result := []]> σ in
  rc ← required_counts guess feedback;
  ws ← σ0 !! words;
  σ' ← for_each (λ word (s : gmap loc (list str)),
      keep ← keep_word rc guess feedback word;
      Some (if keep : bool then alter (λ l, l ++ [word]) result s else s))
    ws σ0;
  Some (σ', result).

(** ** The feedback simulator and the score: [evaluate_word] (lines 275-307) *)

(** The tuple built at lines 298-304. *)
Definition pattern := (Z * Z * Z * Z * Z)%type.

(** The three working lists of one iteration of [for target in possible_words]. *)
Record sim := Sim {
  st_feedback : list Z;
  st_target_letters : list (option char);
  st_word_letters : list (option char)
}.

(** [l[i] = x], which raises when [i] is out of range. *)
Definition setitem {A} (l : list A) (i : nat) (x : A) : option (list A) :=
  if decide (i < length l) then Some (<[i := x]> l) else None.

(** [l.index(x)]: the first position holding [x]. *)
Definition index {A} `{EqDecision A} (l : list A) (x : A) : option nat :=
  fst <$> list_find (λ y, y = x) l.

(** Body of the first pass (lines 284-287). *)
Definition exact_step (i : nat) (st : sim) : option sim :=
  w ← st_word_letters st !! i;
  t ← st_target_letters st !! i;
  if decide (w = t) then
    fb ← setitem (st_feedback st) i 2%Z;
    tl ← setitem (st_target_letters st) i None;
    wl ← setitem (st_word_letters st) i None;
    Some (Sim fb tl wl)
  else Some st.

(** Body of the second pass (lines 290-296). *)
Definition leftover_step (i : nat) (st : sim) : option sim :=
  w ← st_word_letters st !! i;
  if decide (w ≠ None ∧ w ∈ st_target_letters st) then
    fb ← setitem (st_feedback st) i 1%Z;
    idx ← index (st_target_letters st) w;
    tl ← setitem (st_target_letters st) idx None;
    Some (Sim fb tl (st_word_letters st))
  else Some st.

Definition pattern_of (feedback : list Z) : option pattern :=
  f0 ← feedback !! 0; f1 ← feedback !! 1; f2 ← feedback !! 2;
  f3 ← feedback !! 3; f4 ← feedback !! 4;
  Some (f0, f1, f2, f3, f4).

(** The body of [for target in possible_words] up to the tuple [pattern]
    (lines 279-304): the feedback that guessing [word] gets when the
    secret is [target]. *)
Definition simulate (word target : str) : option pattern :=
  let st := Sim (replicate 5 0%Z) (Some <$> target) (Some <$> word) in
  st ← for_each exact_step range5 st;
  st ← for_each leftover_step range5 st;
  pattern_of (st_feedback st).

(** [max(patterns.values())]. *)
Definition max_values (patterns : gmap pattern nat) : nat :=
  max_list (map_to_list patterns).*2.

Definition tally (word : str) (target : str) (patterns : gmap pattern nat)
    : option (gmap pattern nat) :=
  p ← simulate word target;
  Some (<[p := default 0 (patterns !! p) + 1]> patterns).

Definition evaluate_word (word : str) (possible_words : list str) : option nat :=
  patterns ← for_each (tally word) possible_words ∅;
  Some (if decide (patterns = ∅) then 0 else max_values patterns).

(** ** The guess selector: [get_best_guess] (lines 257-272) *)

(** [best_score] starts as [float("inf")] and then holds an [int]. *)
Inductive score := Inf | Fin (n : nat).

Definition score_lt (s : nat) (best : score) : bool :=
  match best with Inf => true | Fin b => s <? b end.

Definition scan (possible_words : list str) (candidate : str)
    (best : str * score) : option (str * score) :=
  s ← evaluate_word candidate possible_words;
  if score_lt s best.2 then Some (candidate, Fin s) else Some best.

Definition get_best_guess (possible_words all_words : list str) : option str :=
  if decide (length possible_words ≤ 2) then possible_words !! 0
  else
    let limit := 50 `min` length possible_words in
    let candidates := take limit possible_words in
    best_word ← candidates !! 0;
    best ← for_each (scan possible_words) candidates (best_word, Inf);
    Some best.1.

(** ** The dictionary file (lines 22-109) *)

(** Python's built-in string operations over all of Unicode, and the match
    of the compiled pattern [CYRILLIC_5_RE], are taken as an interface:
    every result below holds for any implementation of them. *)
Class Builtins := {
  strip : str → str;               (* str.strip() *)
  lower : str → str;               (* str.lower() *)
  splitlines : str → list str;     (* str.splitlines() *)
  CYRILLIC_5_RE : str → bool       (* bool(CYRILLIC_5_RE.match(s)) *)
}.

(** [s.replace(old, new)] for one-character [old]. *)
Definition replace (old : char) (new : str) (s : str) : str :=
  s ≫= λ ch, if decide (ch = old) then new else [ch].

Definition NORMALIZED_RUSSIAN : gset char :=
  list_to_set (utf8 "абвгдеежзийклмнопрстуфхцчшщъыьэюя").

(** Python compares strings code point by code point. *)
Fixpoint str_leb (a b : str) : bool :=
  match a, b with
  | [], _ => true
  | _ :: _, [] => false
  | x :: a', y :: b' =>
      if (x <? y)%N then true else if (x =? y)%N then str_leb a' b' else false
  end.

Definition str_le (a b : str) : Prop := str_leb a b.

#[global] Instance str_le_dec a b : Decision (str_le a b).
Proof. unfold str_le. apply _. Defined.

(** The dictionary path on disk. *)
Inductive file :=
  | Missing                   (* not path.exists() *)
  | Unreadable                (* reading raises *)
  | Text (content : str).

Inductive message :=
  | MsgInvalid (word : str)          (* "Слово ... не подходит" *)
  | MsgPresent (w : str)             (* "Слово ... уже есть в словаре." *)
  | MsgAdded (w : str) (n : nat)     (* "Слово ... добавлено ..." *)
  | MsgWriteError.                   (* "Ошибка при записи файла" *)

Section dictionary.
Context `{Builtins}.

Definition normalize_word (word : str) : str :=
  replace 32%N [] (replace 45%N [] (replace 1105%N [1077%N] (lower (strip word)))).

Definition is_valid_five_letter_word (word : str) : bool :=
  if decide (word = []) then false else
  let normalized_word := normalize_word word in
  if negb (CYRILLIC_5_RE normalized_word) then false else
  bool_decide (Forall (λ ch, ch ∈ NORMALIZED_RUSSIAN) normalized_word).

Definition read_text_file (path : file) : option (list str) :=
  match path with
  | Text content => Some (splitlines content)
  | _ => None
  end.

Definition get_nouns (path : file) : list str :=
  match path with
  | Missing => []
  | _ =>
      match read_text_file path with
      | None => []
      | Some lines =>
          let words : gset str :=
            foldl (λ words line,
                let w := normalize_word line in
                if is_valid_five_letter_word w then {[w]} ∪ words else words)
              ∅ lines in
          merge_sort str_le (elements words)
      end
  end.

(** [write_words_atomic]: the temporary file replaces [path]. *)
Definition write_words_atomic (words : list str) : file :=
  Text (words ≫= λ w, w ++ [10%N]).

(** [writable] tells whether [mkdir] and the rewrite succeed.  The result
    is the returned flag, the file afterwards and what was printed. *)
Definition add_word_to_dict (word : str) (writable : bool) (path : file)
    : bool * file * list message :=
  let w := normalize_word word in
  if negb (is_valid_five_letter_word w) then (false, path, [MsgInvalid word])
  else
    let words := get_nouns path in
    if decide (w ∈ words) then (true, path, [MsgPresent w])
    else
      let words := merge_sort str_le (elements (list_to_set (words ++ [w]) : gset str)) in
      if writable then (true, write_words_atomic words, [MsgAdded w (length words)])
      else (false, path, [MsgWriteError]).

(** [main] when [--add-word] holds a non-empty string:
    [sys.exit(0 if ok else 1)]. *)
Definition main_add_word (word : str) (writable : bool) (path : file) : Z * file :=
  let '(ok, path', _) := add_word_to_dict word writable path in
  (if ok then 0%Z else 1%Z, path').
End dictionary.

(** ** The game loop: [solve_wordle] (lines 149-203) *)

(** What the program prints, and the answers it reads. *)
Inductive event :=
  | EmptyDictionary                           (* "Словарь пуст или не найден." *)
  | NoWordsLeft                               (* "Ошибка: нет возможных слов ..." *)
  | Solved (w : str)                          (* "Угадал! Это слово: ..." *)
  | Attempt (n : nat) (guess : str)           (* "Попытка n/6 — пробую: ..." *)
  | Feedback (guess fb : str)                 (* the answer read for [guess] *)
  | Remaining (n : nat)                       (* "Осталось возможных слов: n" *)
  | LastAttempt (chosen : str) (rest : list str)  (* "Последняя попытка!" ... *)
  | NothingLeft                               (* "... вариантов не осталось." *)
  | Finished.                                 (* "Задача завершена." *)

(** How one iteration of [for attempt in range(1, 7)] ends: by [return],
    by an uncaught exception, or by falling through to the next one. *)
Inductive round_result :=
  | Stop (out : list event)
  | Crash (out : list event)
  | Next (out : list event) (possible_words : list str) (stdin : list str).

Inductive exit := Returned | Raised.

Definition all_correct : str := [c2; c2; c2; c2; c2].

Section game.
Context `{Builtins}.

(** [stdin] holds the lines the player will type; [input()] on an
    exhausted [stdin] raises [EOFError]. *)
Fixpoint get_feedback_interactive (guess : str) (stdin : list str)
    : option (str * list str) :=
  match stdin with
  | [] => None
  | line :: stdin' =>
      let fb := strip line in
      if bool_decide (length fb ≠ 5 ∨ Exists (λ ch, ch ∉ [c0; c1; c2]) fb)
      then get_feedback_interactive guess stdin'
      else Some (fb, stdin')
  end.

(** Lines 180-183. *)
Definition choose_guess (all_words : list str) (first_guess : str)
    (attempt : nat) (possible_words : list str) : option str :=
  if decide (attempt = 1) then
    if decide (first_guess ∈ all_words) then Some first_guess
    else possible_words !! 0
  else get_best_guess possible_words all_words.

(** Lines 195-201. *)
Definition last_report (attempt : nat) (possible_words : list str) : list event :=
  if decide (attempt = 6) then
    if decide (1 ≤ length possible_words) then
      match possible_words !! 0 with
      | Some w => [LastAttempt w possible_words]
      | None => []
      end
    else [NothingLeft]
  else [].

(** The body of the loop (lines 172-201). *)
Definition round (all_words : list str) (first_guess : str) (attempt : nat)
    (possible_words : list str) (stdin : list str) : round_result :=
  if decide (length possible_words = 0) then Stop [NoWordsLeft]
  else if decide (length possible_words = 1) then
    match possible_words !! 0 with
    | Some w => Stop [Solved w]
    | None => Crash []
    end
  else
    match choose_guess all_words first_guess attempt possible_words with
    | None => Crash []
    | Some current_guess =>
        match get_feedback_interactive current_guess stdin with
        | None => Crash [Attempt attempt current_guess]
        | Some (feedback, stdin') =>
            let asked := [Attempt attempt current_guess;
                          Feedback current_guess feedback] in
            if decide (feedback = all_correct)
            then Stop (asked ++ [Solved current_guess])
            else
              match filter_words possible_words current_guess feedback with
              | None => Crash asked
              | Some possible_words' =>
                  Next (asked ++ [Remaining (length possible_words')]
                          ++ last_report attempt possible_words')
                       possible_words' stdin'
              end
        end
    end.

Fixpoint game_loop (all_words : list str) (first_guess : str)
    (attempts : list nat) (possible_words : list str) (stdin : list str)
    : list event * exit :=
  match attempts with
  | [] => ([Finished], Returned)
  | attempt :: later =>
      match round all_words first_guess attempt possible_words stdin with
      | Stop out => (out, Returned)
      | Crash out => (out, Raised)
      | Next out possible_words' stdin' =>
          let '(out', e) :=
            game_loop all_words first_guess later possible_words' stdin' in
          (out ++ out', e)
      end
  end.

Definition solve_wordle (wordlist_path : file) (first_guess : str)
    (stdin : list str) : list event * exit :=
  let all_words := get_nouns wordlist_path in
  if decide (all_words = []) then ([EmptyDictionary], Returned)
  else
    let possible_words := all_words in
    let first_guess := normalize_word first_guess in
    game_loop all_words first_guess (seq 1 6) possible_words stdin.

(** The loop reaches round [attempt] holding [possible_words], with
    [stdin] still to be read, when run on the dictionary [all_words] and
    the input [stdin0]. *)
Inductive at_round (all_words : list str) (first_guess : str) (stdin0 : list str)
    : nat → list str → list str → Prop :=
  | at_round_first :
      all_words ≠ [] →
      at_round all_words first_guess stdin0 1 all_words stdin0
  | at_round_next attempt possible_words stdin out possible_words' stdin' :
      at_round all_words first_guess stdin0 attempt possible_words stdin →
      attempt < 6 →
      round all_words first_guess attempt possible_words stdin
        = Next out possible_words' stdin' →
      at_round all_words first_guess stdin0 (S attempt) possible_words' stdin'.

End game.

(** ** The specification's vocabulary *)

Inductive mark := ABSENT | PRESENT_ELSEWHERE | CORRECT_POSITION.

#[global] Instance mark_eq_dec : EqDecision mark.
Proof. solve_decision. Defined.

(** The integer the simulator writes for a mark, and the character the
    player types for it. *)
Definition mark_code (m : mark) : Z :=
  match m with ABSENT => 0 | PRESENT_ELSEWHERE => 1 | CORRECT_POSITION => 2 end%Z.

Definition mark_char (m : mark) : char :=
  match m with ABSENT => c0 | PRESENT_ELSEWHERE => c1 | CORRECT_POSITION => c2 end.

Definition pattern_marks (ms : list mark) : option pattern :=
  pattern_of (mark_code <$> ms).

(** A feedback pattern as the string [filter_words] reads. *)
Definition feedback_str (ms : list mark) : str := mark_char <$> ms.

(** Number of occurrences of a letter in a word. *)
Definition occurrences (L : char) (w : str) : nat := length (filter (λ ch, ch = L) w).

(** requiredCount(L): the positions of the guess that carry [L] and are
    marked PRESENT_ELSEWHERE or CORRECT_POSITION. *)
Definition requiredCount (guess feedback : str) (L : char) : nat :=
  length (filter (λ gf, gf.1 = L ∧ (gf.2 = c1 ∨ gf.2 = c2)) (zip guess feedback)).

(** The exact-length words of the data model. *)
Definition is_word (w : str) : Prop := length w = 5.

#[global] Instance is_word_dec w : Decision (is_word w).
Proof. unfold is_word. apply _. Defined.

(** *** The two-pass algorithm as the specification words it *)

(** Consume the first instance of [x], by position order. *)
Fixpoint remove_first (x : char) (pool : list char) : list char :=
  match pool with
  | [] => []
  | y :: pool' => if decide (y = x) then pool' else y :: remove_first x pool'
  end.

(** Pass 1: the secret's letters that no exact match consumed. *)
Definition unconsumed (guess secret : str) : list char :=
  (filter (λ gs, gs.1 ≠ gs.2) (zip guess secret)).*2.

(** Pass 2, over the positions in order, with the unconsumed letters. *)
Fixpoint leftover_pass (guess secret : str) (pool : list char) : list mark :=
  match guess, secret with
  | g :: guess', s :: secret' =>
      if decide (g = s) then CORRECT_POSITION :: leftover_pass guess' secret' pool
      else if decide (g ∈ pool)
      then PRESENT_ELSEWHERE :: leftover_pass guess' secret' (remove_first g pool)
      else ABSENT :: leftover_pass guess' secret' pool
  | _, _ => []
  end.

Definition two_pass (guess secret : str) : list mark :=
  leftover_pass guess secret (unconsumed guess secret).

(** Positions of the guess that carry [L] and got the mark [m]. *)
Definition marked (m : mark) (L : char) (guess : str) (ms : list mark) : nat :=
  length (filter (λ gm, gm.1 = L ∧ gm.2 = m) (zip guess ms)).

(** Positions where guess and secret both carry [L]. *)
Definition exact_matches (L : char) (guess secret : str) : nat :=
  length (filter (λ gs, gs.1 = L ∧ gs.2 = L) (zip guess secret)).

(** *** The minimax score as the specification words it *)

(** The words of the pool that would answer [w] with the pattern [p]. *)
Definition bucket (w : str) (pool : list str) (p : pattern) : nat :=
  length (filter (λ t, simulate w t = Some p) pool).

(** The largest bucket over the distinct patterns [w] can get. *)
Definition worst_case (w : str) (pool : list str) : nat :=
  max_list (bucket w pool <$> remove_dups (omap (simulate w) pool)).

(** Strict order of Python strings. *)
Definition str_lt (a b : str) : Prop := str_le a b ∧ a ≠ b.

(** A candidate that agrees with the feedback given for a guess, as the
    specification describes the filter (steps 1 to 3). *)
Definition consistent (guess feedback word : str) : Prop :=
  word ≠ guess
  ∧ (∀ i g, feedback !! i = Some c2 → guess !! i = Some g → word !! i = Some g)
  ∧ (∀ i g, feedback !! i = Some c1 → guess !! i = Some g →
       word !! i ≠ Some g ∧ g ∈ word)
  ∧ (∀ i g, feedback !! i = Some c0 → guess !! i = Some g →
       occurrences g word ≤ requiredCount guess feedback g).

(** The string a player types to report a pattern of the simulator. *)
Definition digit (z : Z) : char := (48 + Z.to_N z)%N.

Definition pattern_str (p : pattern) : str :=
  let '(f0, f1, f2, f3, f4) := p in digit <$> [f0; f1; f2; f3; f4].

(** *** The working lists of the simulator between its two passes *)

(** [feedback] after the first pass. *)
Definition exact_marks (ws ts : str) : list Z :=
  zip_with (λ w t, if decide (w = t) then 2%Z else 0%Z) ws ts.

(** [word_letters] (and, with the arguments swapped, [target_letters]) after
    the first pass: the exact matches are replaced by [None]. *)
Definition exact_rest (xs ys : str) : list (option char) :=
  zip_with (λ x y, if decide (x = y) then None else Some x) xs ys.

(** The letters still in a working list, by position order. *)
Definition remaining (letters : list (option char)) : list char := omap id letters.

(** Number of guesses announced in an output. *)
Definition is_attempt (e : event) : bool :=
  match e with Attempt _ _ => true | _ => false end.

Definition attempts_made (out : list event) : nat :=
  length (filter is_attempt out).

(** The dictionary of the specification's scenario. *)
Definition scenario_words : list str :=
  utf8 <$> ["огонь"; "опера"; "облик"; "осень"; "охота"]%string.

(** *** An implementation of the built-in interface

    Enough of Python's string operations to run the model on Basic Latin
    and Cyrillic text: white space is the space and the control characters
    9 to 13, the letters with an upper case are A-Z, А-Я and Ё, and a line
    ends at a line feed. *)
Definition basic_space (ch : char) : bool :=
  ((ch =? 32) || ((9 <=? ch) && (ch <=? 13)))%N.

Fixpoint basic_lstrip (s : str) : str :=
  match s with
  | ch :: s' => if basic_space ch then basic_lstrip s' else s
  | [] => []
  end.

Definition basic_strip (s : str) : str :=
  reverse (basic_lstrip (reverse (basic_lstrip s))).

Definition basic_lower_char (ch : char) : char :=
  if ((65 <=? ch) && (ch <=? 90))%N then (ch + 32)%N
  else if ((1040 <=? ch) && (ch <=? 1071))%N then (ch + 32)%N
  else if (ch =? 1025)%N then 1105%N
  else ch.

Fixpoint basic_splitlines (line s : str) : list str :=
  match s with
  | [] => if decide (line = []) then [] else [line]
  | ch :: s' =>
      if (ch =? 10)%N then line :: basic_splitlines [] s'
      else basic_splitlines (line ++ [ch]) s'
  end.

Definition basic_cyrillic (ch : char) : bool :=
  ((1040 <=? ch) && (ch <=? 1103))%N.

Definition basic_builtins : Builtins := {|
  strip := basic_strip;
  lower := fmap basic_lower_char;
  splitlines := basic_splitlines [];
  CYRILLIC_5_RE := λ s, bool_decide (length s = 5) && forallb basic_cyrillic s
|}.

(** A dictionary file of three lines, the second one in upper case. *)
Definition scenario_file : file :=
  Text (utf8 "огонь" ++ [10%N] ++ utf8 "ОПЕРА" ++ [10%N] ++ utf8 "осень" ++ [10%N]).

(** ** The other dictionary commands (lines 112-146) *)

(** [words.remove(w)]: drops the first [w], and raises when there is none. *)
Fixpoint list_remove_word (w : str) (words : list str) : option (list str) :=
  match words with
  | [] => None
  | x :: rest =>
      if decide (x = w) then Some rest else (x ::.) <$> list_remove_word w rest
  end.

Inductive remove_message :=
  | MsgNotFound (w : str)              (* "Слово ... не найдено в словаре." *)
  | MsgRemoved (w : str) (n : nat)     (* "Слово ... удалено ..." *)
  | MsgUpdateError.                    (* "Ошибка при обновлении" *)

(** What [list_words] prints, line by line. *)
Inductive listing_line :=
  | LineNoWords                        (* "Слова не найдены." *)
  | LineWord (w : str).

Section commands.
Context `{Builtins}.

(** [writable] tells whether the rewrite succeeds; an exception of
    [words.remove] or of the rewrite is caught and reported. *)
Definition remove_word_from_dict (word : str) (writable : bool) (path : file)
    : bool * file * list remove_message :=
  let w := normalize_word word in
  let words := get_nouns path in
  if decide (w ∉ words) then (false, path, [MsgNotFound w])
  else
    match list_remove_word w words with
    | None => (false, path, [MsgUpdateError])
    | Some words =>
        if writable then (true, write_words_atomic words, [MsgRemoved w (length words)])
        else (false, path, [MsgUpdateError])
    end.

(** [main] when [--remove-word] holds a non-empty string (and [--add-word]
    does not): [sys.exit(0 if ok else 1)]. *)
Definition main_remove_word (word : str) (writable : bool) (path : file) : Z * file :=
  let '(ok, path', _) := remove_word_from_dict word writable path in
  (if ok then 0%Z else 1%Z, path').

(** [limit] is [None] or an [int]; [words[:limit]] is taken for
    [limit >= 0] only. *)
Definition list_words (path : file) (limit : option Z) : list listing_line :=
  let words := get_nouns path in
  let words :=
    match limit with
    | Some n => if (0 <=? n)%Z then take (Z.to_nat n) words else words
    | None => words
    end in
  if decide (words = []) then [LineNoWords] else LineWord <$> words.

End commands.

(** A dictionary file is canonical when it reads back as the words a
    rewrite put there. *)
Definition reads_back `{Builtins} (words : list str) : Prop :=
  get_nouns (write_words_atomic words) = words.

(** Positions where the guess carries [L] and the secret another letter. *)
Definition misplaced (L : char) (guess secret : str) : nat :=
  length (filter (λ gs, gs.1 = L ∧ gs.1 ≠ gs.2) (zip guess secret)).

(** An answer the prompt accepts: five characters among 0, 1 and 2. *)
Definition valid_feedback (fb : str) : Prop :=
  length fb = 5 ∧ Forall (λ ch, ch ∈ [c0; c1; c2]) fb.

(** [sorted(set(words + [w]))], the list an addition writes. *)
Definition sorted_with (w : str) (words : list str) : list str :=
  merge_sort str_le (elements (list_to_set (words ++ [w]) : gset str)).

#[global] Instance valid_feedback_dec fb : Decision (valid_feedback fb).
Proof. unfold valid_feedback. apply _. Defined.

(** The answers the prompt will accept among the lines still to be read. *)
Definition answers `{Builtins} (stdin : list str) : nat :=
  length (filter (λ line, valid_feedback (strip line)) stdin).

(** The components of a pattern, by position. *)
Definition pattern_list (p : pattern) : list Z :=
  let '(f0, f1, f2, f3, f4) := p in [f0; f1; f2; f3; f4].

(** Positions of the guess that carry [L] and hold the integer [c] in the
    list of integers [codes]. *)
Definition coded (c : Z) (L : char) (guess : str) (codes : list Z) : nat :=
  length (filter (λ gc, gc.1 = L ∧ gc.2 = c) (zip guess codes)).

(** A text file of the given lines. *)
Definition text_of_lines (lines : list string) : str :=
  lines ≫= λ line, utf8 line ++ [10%N].

(** A dictionary file of eight words. *)
Definition eight_words_file : file :=
  Text (text_of_lines ["огонь"; "вагон"; "бидон"; "бетон"; "бекон"; "батон";
                       "барон"; "банка"]%string).

(** A dictionary file whose first line is a hyphen, a tabulation and five
    letters. *)
Definition unstripped_file : file :=
  Text ([45%N; 9%N] ++ text_of_lines ["абвгд"; "огонь"; "осень"]%string).

(** The five words of [eight_words_file] that end in ОН and hold no Г. *)
Definition five_candidates : list str :=
  utf8 <$> ["барон"; "батон"; "бекон"; "бетон"; "бидон"]%string.

(** * Proofs *)

(** ** Literals *)

Example utf8_opera : utf8 "опера" = [1086; 1087; 1077; 1088; 1072]%N.
Proof. reflexivity. Qed.

Example utf8_digits : utf8 "012" = [48; 49; 50]%N.
Proof. reflexivity. Qed.

(** ** Loops *)

Lemma all_checks_true check idxs :
  all_checks check idxs = Some true ↔ Forall (λ i, check i = Some true) idxs.
Proof.
  induction idxs as [|i idxs IH]; simpl.
  - split; [constructor | done].
  - rewrite Forall_cons. destruct (check i) as [[]|]; simpl.
    + rewrite IH. tauto.
    + split; [done | by intros [[=] _]].
    + split; [done | by intros [[=] _]].
Qed.

Lemma all_checks_is_Some check idxs :
  Forall (λ i, is_Some (check i)) idxs → is_Some (all_checks check idxs).
Proof.
  induction 1 as [|i idxs [b Hb] _ IH]; simpl; [by eexists|].
  rewrite Hb. simpl. destruct b; [done | by eexists].
Qed.

Lemma elem_of_range5 i : i ∈ range5 ↔ i < 5.
Proof. unfold range5. rewrite elem_of_seq. lia. Qed.

(** The accumulating loop of [filter_words] is a filter. *)
Lemma for_each_append (keep : str → option bool) ws acc res :
  for_each (λ word result,
      k ← keep word; Some (if k : bool then result ++ [word] else result)) ws acc
    = Some res →
  res = acc ++ filter (λ w, keep w = Some true) ws.
Proof.
  revert acc. induction ws as [|w ws IH]; intros acc; simpl.
  - intros [= <-]. by rewrite app_nil_r.
  - destruct (keep w) as [[]|] eqn:Hk; simpl; [| |done].
    + intros Hres. rewrite (IH _ Hres), filter_cons_True by done.
      by rewrite <-app_assoc.
    + intros Hres. rewrite (IH _ Hres), filter_cons_False; [done|].
      by rewrite Hk.
Qed.

Lemma for_each_append_total (keep : str → option bool) ws acc :
  Forall (λ w, is_Some (keep w)) ws →
  for_each (λ word result,
      k ← keep word; Some (if k : bool then result ++ [word] else result)) ws acc
    = Some (acc ++ filter (λ w, keep w = Some true) ws).
Proof.
  intros Hall. revert acc.
  induction Hall as [|w ws [k Hk] _ IH]; intros acc; simpl.
  - by rewrite app_nil_r.
  - rewrite Hk. simpl. rewrite IH. destruct k.
    + rewrite filter_cons_True by done. by rewrite <-app_assoc.
    + rewrite filter_cons_False; [done|]. by rewrite Hk.
Qed.

(** ** Counters *)

Lemma get0_insert (d : gmap char nat) k v L :
  get0 (<[k := v]> d) L = if decide (k = L) then v else get0 d L.
Proof. unfold get0. rewrite lookup_insert. by case_decide. Qed.

Lemma Counter_occurrences word L : get0 (Counter word) L = occurrences L word.
Proof.
  unfold Counter, occurrences.
  assert (∀ d, get0 (foldl (λ d ch, <[ch := get0 d ch + 1]> d) d word) L
               = get0 d L + length (filter (λ ch, ch = L) word)) as Hgen.
  { induction word as [|ch word IH]; intros d; [simpl; lia|].
    rewrite filter_cons. cbn [foldl]. rewrite IH, get0_insert.
    repeat case_decide; simpl; subst; try lia; congruence. }
  rewrite Hgen. done.
Qed.

Lemma count_required_eq feedback i ch rc f :
  feedback !! i = Some f →
  count_required feedback (i, ch) rc
    = Some (if bool_decide (f = c1 ∨ f = c2)
            then <[ch := get0 rc ch + 1]> rc else rc).
Proof. unfold count_required. simpl. intros ->. simpl. by case_bool_decide. Qed.

Lemma required_counts_from guess feedback k rc :
  length guess + k ≤ length feedback →
  ∃ rc', for_each (count_required feedback) (imap (λ i, pair (k + i)) guess) rc
           = Some rc'
    ∧ ∀ L, get0 rc' L = get0 rc L + requiredCount guess (drop k feedback) L.
Proof.
  revert k rc. induction guess as [|g guess IH]; intros k rc Hlen; simpl in *.
  - exists rc. split; [done|]. intros L. unfold requiredCount.
    rewrite zip_with_nil_l. simpl. lia.
  - destruct (lookup_lt_is_Some_2 feedback k) as [f Hf]; [lia|].
    rewrite Nat.add_0_r, (count_required_eq _ _ _ _ _ Hf). cbn [mbind option_bind].
    rewrite (drop_S _ _ _ Hf).
    set (rc1 := if bool_decide (f = c1 ∨ f = c2)
                then <[g := get0 rc g + 1]> rc else rc).
    destruct (IH (S k) rc1) as (rc' & Hrun & Hrc'); [lia|].
    exists rc'. split.
    + rewrite <-Hrun. unfold rc1. f_equal.
      apply imap_ext. intros i x _. simpl. f_equal. lia.
    + intros L. rewrite Hrc'. unfold requiredCount, rc1. simpl.
      rewrite filter_cons. simpl.
      case_bool_decide as Hmark; [rewrite get0_insert|];
        repeat case_decide; simpl in *; subst; try lia; tauto.
Qed.

Lemma required_counts_spec guess feedback :
  length guess ≤ length feedback →
  ∃ rc, required_counts guess feedback = Some rc
    ∧ ∀ L, get0 rc L = requiredCount guess feedback L.
Proof.
  intros Hlen. destruct (required_counts_from guess feedback 0 ∅) as (rc & Hrun & Hrc).
  { lia. }
  exists rc. split; [exact Hrun|]. intros L. rewrite Hrc. done.
Qed.

(** ** The per-word checks of [filter_words] *)

Section checks.
Context (guess feedback word : str).
Context (Hguess : is_word guess) (Hfeedback : length feedback = 5)
        (Hword : is_word word).

Lemma lookups i :
  i < 5 → ∃ f g w,
    feedback !! i = Some f ∧ guess !! i = Some g ∧ word !! i = Some w.
Proof using Hguess Hfeedback Hword.
  intros Hi. unfold is_word in *.
  destruct (lookup_lt_is_Some_2 feedback i) as [f Hf]; [lia|].
  destruct (lookup_lt_is_Some_2 guess i) as [g Hg]; [lia|].
  destruct (lookup_lt_is_Some_2 word i) as [w Hw]; [lia|].
  by exists f, g, w.
Qed.

Lemma in_range (l : str) i x : length l = 5 → l !! i = Some x → i < 5.
Proof. intros <- Hl. by eapply lookup_lt_Some. Qed.

Lemma position_check_spec i :
  i < 5 → ∃ b, position_check word guess feedback i = Some b
    ∧ (b = true ↔
        (∀ g, feedback !! i = Some c2 → guess !! i = Some g → word !! i = Some g)
        ∧ (∀ g, feedback !! i = Some c1 → guess !! i = Some g → word !! i ≠ Some g)).
Proof using Hguess Hfeedback Hword.
  intros Hi. destruct (lookups i Hi) as (f & g & w & Hf & Hg & Hw).
  exists (if decide (f = c2) then bool_decide (w = g)
          else if decide (f = c1) then bool_decide (w ≠ g) else true).
  split.
  { unfold position_check. rewrite Hf. simpl.
    destruct (decide (f = c2)); [|destruct (decide (f = c1))];
      rewrite ?Hw, ?Hg; done. }
  destruct (decide (f = c2)); [|destruct (decide (f = c1))];
    subst; rewrite ?bool_decide_eq_true.
  - split.
    + intros Heq. subst w. split; [congruence|].
      intros ? Hf'. by rewrite Hf in Hf'.
    + intros [Hc _]. specialize (Hc g Hf Hg). congruence.
  - split.
    + intros Hne. split; [intros ? Hf'; by rewrite Hf in Hf'|].
      intros g' _ Hg' Hw'. apply Hne. congruence.
    + intros [_ Hc] Heq. subst w. by apply (Hc g).
  - split; [|done]. intros _. split; intros ? Hf'; congruence.
Qed.

Lemma presence_check_spec i :
  i < 5 → ∃ b, presence_check word guess feedback i = Some b
    ∧ (b = true ↔ ∀ g, feedback !! i = Some c1 → guess !! i = Some g → g ∈ word).
Proof using Hguess Hfeedback Hword.
  intros Hi. destruct (lookups i Hi) as (f & g & w & Hf & Hg & Hw).
  exists (if decide (f = c1) then bool_decide (g ∈ word) else true).
  split.
  { unfold presence_check. rewrite Hf. simpl.
    destruct (decide (f = c1)); rewrite ?Hg; done. }
  destruct (decide (f = c1)); subst; rewrite ?bool_decide_eq_true.
  - split; [congruence|]. intros Hc. by apply Hc.
  - split; [|done]. intros _ ? Hf'. congruence.
Qed.

Lemma absent_check_spec rc i :
  (∀ L, get0 rc L = requiredCount guess feedback L) →
  i < 5 → ∃ b, absent_check rc (Counter word) guess feedback i = Some b
    ∧ (b = true ↔ ∀ g, feedback !! i = Some c0 → guess !! i = Some g →
                    occurrences g word ≤ requiredCount guess feedback g).
Proof using Hguess Hfeedback Hword.
  intros Hrc Hi. destruct (lookups i Hi) as (f & g & w & Hf & Hg & Hw).
  exists (if decide (f = c0)
          then negb (get0 rc g <? get0 (Counter word) g) else true).
  split.
  { unfold absent_check. rewrite Hf. simpl.
    destruct (decide (f = c0)); rewrite ?Hg; done. }
  destruct (decide (f = c0)); subst.
  - rewrite Hrc, Counter_occurrences, negb_true_iff, Nat.ltb_ge. split.
    + intros Hle g' _ Hg'. congruence.
    + intros Hc. by apply Hc.
  - split; [|done]. intros _ ? Hf'. congruence.
Qed.

(** A loop over [range(5)] whose body never raises decides a property of
    every position. *)
Lemma all_checks_range5 check (P : nat → Prop) :
  (∀ i, i < 5 → ∃ b, check i = Some b ∧ (b = true ↔ P i)) →
  ∃ b, all_checks check range5 = Some b ∧ (b = true ↔ ∀ i, i < 5 → P i).
Proof.
  intros Hcheck.
  destruct (all_checks_is_Some check range5) as [b Hb].
  { apply Forall_forall. intros i Hi%elem_of_range5.
    destruct (Hcheck i Hi) as (c & -> & _). by eexists. }
  exists b. split; [done|]. split.
  - intros -> i Hi. apply all_checks_true in Hb.
    rewrite Forall_forall in Hb. specialize (Hb i).
    destruct (Hcheck i Hi) as (c & Hc & <-).
    rewrite Hc in Hb. injection Hb; [done | by apply elem_of_range5].
  - intros HP. destruct b; [done|].
    assert (all_checks check range5 = Some true) as Htrue; [|congruence].
    apply all_checks_true, Forall_forall. intros i Hi%elem_of_range5.
    destruct (Hcheck i Hi) as (c & -> & Hc). f_equal. by apply Hc, HP.
Qed.

Lemma keep_word_spec rc :
  (∀ L, get0 rc L = requiredCount guess feedback L) →
  ∃ b, keep_word rc guess feedback word = Some b
    ∧ (b = true ↔ consistent guess feedback word).
Proof using Hguess Hfeedback Hword.
  intros Hrc. unfold keep_word, consistent.
  case_decide as Hne; [exists false; split; [done|]; split; [done | tauto]|].
  destruct (all_checks_range5 _ _ position_check_spec) as (b1 & -> & Hb1).
  destruct (all_checks_range5 _ _ presence_check_spec) as (b2 & -> & Hb2).
  destruct (all_checks_range5 _ _ (λ i, absent_check_spec rc i Hrc)) as (b3 & -> & Hb3).
  simpl. destruct b1; simpl.
  2: { exists false. split; [done|]. split; [done|]. intros (_ & H2 & H1 & _).
       apply Hb1. intros i _. split; intros g ??; [by eapply H2|by eapply H1]. }
  destruct b2; simpl.
  2: { exists false. split; [done|]. split; [done|]. intros (_ & _ & H1 & _).
       apply Hb2. intros i _ g ??. by eapply H1. }
  exists b3. split; [done|]. rewrite Hb3.
  destruct Hb1 as [Hb1 _], Hb2 as [Hb2 _].
  specialize (Hb1 eq_refl). specialize (Hb2 eq_refl). split.
  - intros H0. split; [done|]. split; [|split].
    + intros i g Hf Hg. pose proof (in_range _ _ _ Hfeedback Hf) as Hi.
      by apply (Hb1 i Hi).
    + intros i g Hf Hg. pose proof (in_range _ _ _ Hfeedback Hf) as Hi. split.
      * by apply (Hb1 i Hi).
      * by apply (Hb2 i Hi).
    + intros i g Hf Hg. pose proof (in_range _ _ _ Hfeedback Hf) as Hi.
      by apply (H0 i Hi).
  - intros (_ & _ & _ & H0) i _ g ??. by eapply H0.
Qed.

End checks.

(** ** [filter_words] as a filter *)

(** Whatever the arguments, a call that returns has kept exactly the words
    that passed the checks, in their order. *)
Lemma filter_words_Some words guess feedback res :
  filter_words words guess feedback = Some res →
  ∃ rc, required_counts guess feedback = Some rc
    ∧ res = filter (λ w, keep_word rc guess feedback w = Some true) words.
Proof.
  unfold filter_words. destruct (required_counts guess feedback) as [rc|]; [|done].
  simpl. intros Hres%for_each_append. exists rc. by split.
Qed.

(** On words and a feedback of the fixed length nothing raises. *)
Lemma filter_words_total words guess feedback :
  Forall is_word words → is_word guess → length feedback = 5 →
  ∃ rc, required_counts guess feedback = Some rc
    ∧ (∀ L, get0 rc L = requiredCount guess feedback L)
    ∧ filter_words words guess feedback
        = Some (filter (λ w, keep_word rc guess feedback w = Some true) words).
Proof.
  intros Hwords Hguess Hfb.
  destruct (required_counts_spec guess feedback) as (rc & Hrc & Hget).
  { unfold is_word in Hguess. lia. }
  exists rc. split; [done|]. split; [done|].
  unfold filter_words. rewrite Hrc. simpl.
  rewrite for_each_append_total; [done|].
  eapply Forall_impl; [exact Hwords|]. intros w Hw.
  destruct (keep_word_spec guess feedback w Hguess Hfb Hw rc Hget) as (b & -> & _).
  by eexists.
Qed.

Lemma filter_words_spec words guess feedback :
  Forall is_word words → is_word guess → length feedback = 5 →
  ∃ res, filter_words words guess feedback = Some res
    ∧ sublist res words
    ∧ ∀ c, c ∈ res ↔ c ∈ words ∧ consistent guess feedback c.
Proof.
  intros Hwords Hguess Hfb.
  destruct (filter_words_total words guess feedback) as (rc & Hrc & Hget & Hres);
    [done..|].
  eexists. split; [exact Hres|]. split; [apply sublist_filter|].
  intros c. rewrite list_elem_of_filter. split.
  - intros [Hkeep Hc]. split; [done|].
    rewrite Forall_forall in Hwords.
    destruct (keep_word_spec guess feedback c Hguess Hfb (Hwords c Hc) rc Hget)
      as (b & Hb & Hcons).
    apply Hcons. congruence.
  - intros [Hc Hcons]. split; [|done].
    rewrite Forall_forall in Hwords.
    destruct (keep_word_spec guess feedback c Hguess Hfb (Hwords c Hc) rc Hget)
      as (b & Hb & Hiff).
    rewrite Hb. f_equal. by apply Hiff.
Qed.

Lemma Forall_is_word_filter (P : str → Prop) `{∀ w, Decision (P w)} words :
  Forall is_word words → Forall is_word (filter P words).
Proof.
  rewrite !Forall_forall. intros Hw w [_ Hin]%list_elem_of_filter. by apply Hw.
Qed.

(** *** The store version *)

Lemma for_each_alter (keep : str → option bool) (r : nat) ws :
  ∀ (s : gmap nat (list str)) acc,
  s !! r = Some acc →
  for_each (λ word (s : gmap nat (list str)),
      k ← keep word;
      Some (if k : bool then alter (λ l, l ++ [word]) r s else s)) ws s
  = res ← for_each (λ word result,
        k ← keep word; Some (if k : bool then result ++ [word] else result)) ws acc;
    Some (<[r := res]> s).
Proof.
  induction ws as [|w ws IH]; intros s acc Hs; simpl.
  - by rewrite insert_id.
  - destruct (keep w) as [[]|]; simpl; [| |done].
    + rewrite (IH _ (acc ++ [w])).
      * destruct (for_each _ ws (acc ++ [w])); simpl; [|done].
        f_equal. apply map_eq. intros j.
        rewrite !lookup_insert. case_decide; [done|].
        by rewrite lookup_alter_ne.
      * by rewrite lookup_alter_eq, Hs.
    + by apply IH.
Qed.

Lemma filter_words_st_spec (σ : gmap nat (list str)) words ws guess feedback :
  σ !! words = Some ws →
  filter_words_st σ words guess feedback
  = res ← filter_words ws guess feedback;
    Some (<[fresh (dom σ) := res]> σ, fresh (dom σ)).
Proof.
  intros Hws. unfold filter_words_st, filter_words.
  destruct (required_counts guess feedback) as [rc|]; simpl; [|done].
  assert (fresh (dom σ) ≠ words) as Hfresh.
  { intros Heq. apply (is_fresh (dom σ)). rewrite Heq. by apply elem_of_dom. }
  rewrite lookup_insert_ne, Hws by done. simpl.
  rewrite (for_each_alter _ _ _ _ []) by apply lookup_insert_eq.
  destruct (for_each _ ws []); simpl; [|done].
  by rewrite insert_insert_eq.
Qed.

(** ** Claims about the candidate filter *)

(** C1. Duplicate-letter accounting.  On words and a feedback of the fixed
    length, [filter_words] returns, and a surviving candidate holds a letter
    that is marked ABSENT at some position of the guess at most
    requiredCount(L) times, where requiredCount(L) counts the positions of
    the guess carrying L that are marked PRESENT_ELSEWHERE or
    CORRECT_POSITION.  The bound is requiredCount(L), not zero: a candidate
    of the list, other than the guess, that meets the positional
    constraints and stays within requiredCount(L) for every ABSENT position
    does survive. *)
Theorem filter_words_duplicate_letters words guess feedback :
  Forall is_word words → is_word guess → length feedback = 5 →
  ∃ res, filter_words words guess feedback = Some res
    ∧ (∀ c, c ∈ res →
         ∀ i L, feedback !! i = Some c0 → guess !! i = Some L →
           occurrences L c ≤ requiredCount guess feedback L)
    ∧ (∀ c, c ∈ words → c ≠ guess →
         (∀ i g, feedback !! i = Some c2 → guess !! i = Some g → c !! i = Some g) →
         (∀ i g, feedback !! i = Some c1 → guess !! i = Some g →
            c !! i ≠ Some g ∧ g ∈ c) →
         (∀ i L, feedback !! i = Some c0 → guess !! i = Some L →
            occurrences L c ≤ requiredCount guess feedback L) →
         c ∈ res).
Proof.
  intros Hwords Hguess Hfb.
  destruct (filter_words_spec words guess feedback) as (res & Hres & _ & Hin);
    [done..|].
  exists res. split; [done|]. split.
  - intros c [_ (_ & _ & _ & Habsent)]%Hin. exact Habsent.
  - intros c Hc Hne Hgreen Hyellow Habsent. apply Hin. split; [done|].
    unfold consistent. tauto.
Qed.

(** The guess КОЛОС answered 02000: the second О is ABSENT, the first one
    CORRECT_POSITION, so requiredCount(О) = 1 and ПОВАР, with one О, stays. *)
Lemma filter_words_duplicate_letters_witness :
  ∃ res, filter_words [utf8 "повар"; utf8 "колос"; utf8 "порог"]
                      (utf8 "колос") (utf8 "02000") = Some res
    ∧ (∀ c, c ∈ res →
         ∀ i L, utf8 "02000" !! i = Some c0 → utf8 "колос" !! i = Some L →
           occurrences L c ≤ requiredCount (utf8 "колос") (utf8 "02000") L)
    ∧ (∀ c, c ∈ [utf8 "повар"; utf8 "колос"; utf8 "порог"] → c ≠ utf8 "колос" →
         (∀ i g, utf8 "02000" !! i = Some c2 → utf8 "колос" !! i = Some g →
            c !! i = Some g) →
         (∀ i g, utf8 "02000" !! i = Some c1 → utf8 "колос" !! i = Some g →
            c !! i ≠ Some g ∧ g ∈ c) →
         (∀ i L, utf8 "02000" !! i = Some c0 → utf8 "колос" !! i = Some L →
            occurrences L c ≤ requiredCount (utf8 "колос") (utf8 "02000") L) →
         c ∈ res).
Proof.
  apply filter_words_duplicate_letters;
    [repeat constructor | reflexivity | reflexivity].
Defined.

Example filter_words_kolos :
  filter_words [utf8 "повар"; utf8 "колос"; utf8 "порог"]
               (utf8 "колос") (utf8 "02000") = Some [utf8 "повар"]
  ∧ requiredCount (utf8 "колос") (utf8 "02000") 1086%N = 1
  ∧ occurrences 1086%N (utf8 "повар") = 1.
Proof. by vm_compute. Qed.

(** C5. [filter_words] shrinks and never mutates: on words and a feedback
    of the fixed length the call returns a new list object whose words all
    come from the input list (so it is no longer than the input) and do not
    include the guess, and the store holds the input list, and every other
    object, unchanged. *)
Theorem filter_words_shrinks (σ : gmap nat (list str)) words ws guess feedback :
  σ !! words = Some ws →
  Forall is_word ws → is_word guess → length feedback = 5 →
  ∃ σ' result res,
    filter_words_st σ words guess feedback = Some (σ', result)
    ∧ filter_words ws guess feedback = Some res
    ∧ σ' !! result = Some res
    ∧ res ⊆ ws ∧ length res ≤ length ws
    ∧ (guess ∉ res)
    ∧ result ≠ words ∧ σ' !! words = Some ws
    ∧ (∀ l, l ≠ result → σ' !! l = σ !! l).
Proof.
  intros Hws Hwords Hguess Hfb.
  destruct (filter_words_spec ws guess feedback) as (res & Hres & Hsub & Hin);
    [done..|].
  assert (fresh (dom σ) ≠ words) as Hfresh.
  { intros Heq. apply (is_fresh (dom σ)). rewrite Heq. by apply elem_of_dom. }
  exists (<[fresh (dom σ) := res]> σ), (fresh (dom σ)), res.
  split; [|split; [done|split; [|split; [|split; [|split; [|split; [done|split]]]]]]].
  - rewrite (filter_words_st_spec σ words ws) by done. by rewrite Hres.
  - apply lookup_insert_eq.
  - by apply sublist_subseteq.
  - by apply sublist_length.
  - intros [_ [Hne _]]%Hin. done.
  - by rewrite lookup_insert_ne.
  - intros l Hl. by rewrite lookup_insert_ne.
Qed.

Lemma filter_words_shrinks_witness :
  ∃ σ' result res,
    filter_words_st {[ 0 := utf8 <$> ["огонь"; "опера"; "осень"]%string ]} 0
                    (utf8 "опера") (utf8 "20200") = Some (σ', result)
    ∧ filter_words (utf8 <$> ["огонь"; "опера"; "осень"]%string)
                   (utf8 "опера") (utf8 "20200") = Some res
    ∧ σ' !! result = Some res
    ∧ res ⊆ utf8 <$> ["огонь"; "опера"; "осень"]%string
    ∧ length res ≤ length (utf8 <$> ["огонь"; "опера"; "осень"]%string)
    ∧ (utf8 "опера" ∉ res)
    ∧ result ≠ 0
    ∧ σ' !! 0 = Some (utf8 <$> ["огонь"; "опера"; "осень"]%string)
    ∧ (∀ l, l ≠ result →
        σ' !! l = ({[ 0 := utf8 <$> ["огонь"; "опера"; "осень"]%string ]}
                     : gmap nat (list str)) !! l).
Proof.
  apply filter_words_shrinks;
    [reflexivity | repeat constructor | reflexivity | reflexivity].
Defined.

(** ** The simulator: first pass *)

Lemma setitem_middle {A} (l1 l2 : list A) x y n :
  n = length l1 → setitem (l1 ++ x :: l2) n y = Some (l1 ++ y :: l2).
Proof.
  intros ->. unfold setitem. rewrite decide_True.
  - by rewrite insert_app_r_alt, Nat.sub_diag.
  - rewrite length_app. simpl. lia.
Qed.

Lemma snoc_app {A} (l1 l2 : list A) x : l1 ++ x :: l2 = (l1 ++ [x]) ++ l2.
Proof. by rewrite <-app_assoc. Qed.

Lemma length_snoc {A} (l : list A) x : length (l ++ [x]) = S (length l).
Proof. rewrite length_app. simpl. lia. Qed.

Lemma exact_step_middle fbp f fbs tlp t tls wlp w wls :
  length tlp = length fbp → length wlp = length fbp →
  exact_step (length fbp) (Sim (fbp ++ f :: fbs) (tlp ++ t :: tls) (wlp ++ w :: wls))
  = Some (if decide (w = t)
          then Sim (fbp ++ 2%Z :: fbs) (tlp ++ None :: tls) (wlp ++ None :: wls)
          else Sim (fbp ++ f :: fbs) (tlp ++ t :: tls) (wlp ++ w :: wls)).
Proof.
  intros Htl Hwl. unfold exact_step. simpl.
  rewrite (list_lookup_middle wlp), (list_lookup_middle tlp) by done. simpl.
  destruct (decide (w = t)); [|done].
  by rewrite (setitem_middle fbp), (setitem_middle tlp), (setitem_middle wlp).
Qed.

(** The first pass, started at any position: what lies before the position
    is kept, what lies after is compared letter by letter. *)
Lemma exact_pass_from ws : ∀ ts (fbp : list Z) (tlp wlp : list (option char)),
  length ws = length ts → length tlp = length fbp → length wlp = length fbp →
  for_each exact_step (seq (length fbp) (length ws))
    (Sim (fbp ++ replicate (length ws) 0%Z)
         (tlp ++ (Some <$> ts)) (wlp ++ (Some <$> ws)))
  = Some (Sim (fbp ++ exact_marks ws ts)
              (tlp ++ exact_rest ts ws) (wlp ++ exact_rest ws ts)).
Proof.
  induction ws as [|w ws IH]; intros [|t ts] fbp tlp wlp Hlen Htl Hwl;
    try done.
  simpl in Hlen. injection Hlen as Hlen.
  cbn [length seq for_each replicate fmap list_fmap].
  rewrite exact_step_middle by done. cbn [mbind option_bind].
  unfold exact_marks, exact_rest. cbn [zip_with].
  destruct (decide (w = t)) as [->|Hne].
  - rewrite decide_True by done. rewrite !decide_True by done.
    pose proof (IH ts (fbp ++ [2%Z]) (tlp ++ [None]) (wlp ++ [None]) Hlen) as Hrec.
    rewrite !length_snoc, <-!app_assoc in Hrec. cbn [app] in Hrec.
    apply Hrec; congruence.
  - rewrite decide_False by congruence. rewrite !decide_False by congruence.
    pose proof (IH ts (fbp ++ [0%Z]) (tlp ++ [Some t]) (wlp ++ [Some w]) Hlen)
      as Hrec.
    rewrite !length_snoc, <-!app_assoc in Hrec. cbn [app] in Hrec.
    apply Hrec; congruence.
Qed.

Lemma exact_pass ws ts :
  is_word ws → is_word ts →
  for_each exact_step range5 (Sim (replicate 5 0%Z) (Some <$> ts) (Some <$> ws))
  = Some (Sim (exact_marks ws ts) (exact_rest ts ws) (exact_rest ws ts)).
Proof.
  unfold is_word, range5. intros Hw Ht.
  pose proof (exact_pass_from ws ts [] [] []) as Hpass.
  rewrite Hw in Hpass. simpl in Hpass. apply Hpass; done.
Qed.


(** ** The simulator: second pass *)

Lemma elem_of_remaining g (tl : list (option char)) :
  Some g ∈ tl ↔ g ∈ remaining tl.
Proof.
  unfold remaining. rewrite list_elem_of_omap. split.
  - intros Hin. by exists (Some g).
  - intros (x & Hin & Hx). simpl in Hx. by subst.
Qed.

(** [target_letters[target_letters.index(w)] = None] consumes the first
    instance of the letter. *)
Lemma index_remaining g (tl : list (option char)) :
  Some g ∈ tl →
  ∃ idx, index tl (Some g) = Some idx ∧ idx < length tl
    ∧ remaining (<[idx := None]> tl) = remove_first g (remaining tl).
Proof.
  unfold index, remaining. induction tl as [|t tl IH]; intros Hin.
  - by apply elem_of_nil in Hin.
  - cbn [list_find]. destruct (decide (t = Some g)) as [->|Hne].
    + exists 0. simpl. rewrite decide_True by done. split; [done|]. split; [lia|done].
    + apply elem_of_cons in Hin as [Heq|Hin]; [congruence|].
      destruct (IH Hin) as (idx & Hidx & Hlt & Hrem).
      exists (S idx). destruct (list_find _ tl) as [[i x]|]; [|done].
      simpl in Hidx. injection Hidx as ->. simpl. split; [done|]. split; [lia|].
      destruct t as [h|]; simpl.
      * rewrite decide_False by congruence. by f_equal.
      * done.
Qed.

Lemma leftover_step_consumed fbp f fbs tl wlp wls :
  length wlp = length fbp →
  leftover_step (length fbp) (Sim (fbp ++ f :: fbs) tl (wlp ++ None :: wls))
  = Some (Sim (fbp ++ f :: fbs) tl (wlp ++ None :: wls)).
Proof.
  intros Hwl. unfold leftover_step.
  cbn [st_word_letters st_target_letters st_feedback].
  rewrite (list_lookup_middle wlp) by done. cbn [mbind option_bind].
  rewrite decide_False; [done|]. by intros [? _].
Qed.

Lemma leftover_step_absent fbp f fbs tl wlp g wls :
  length wlp = length fbp → g ∉ remaining tl →
  leftover_step (length fbp) (Sim (fbp ++ f :: fbs) tl (wlp ++ Some g :: wls))
  = Some (Sim (fbp ++ f :: fbs) tl (wlp ++ Some g :: wls)).
Proof.
  intros Hwl Hg. unfold leftover_step.
  cbn [st_word_letters st_target_letters st_feedback].
  rewrite (list_lookup_middle wlp) by done. cbn [mbind option_bind].
  rewrite decide_False; [done|]. intros [_ Hin]. by apply Hg, elem_of_remaining.
Qed.

Lemma leftover_step_present fbp f fbs tl wlp g wls :
  length wlp = length fbp → g ∈ remaining tl →
  ∃ tl', leftover_step (length fbp)
           (Sim (fbp ++ f :: fbs) tl (wlp ++ Some g :: wls))
         = Some (Sim (fbp ++ 1%Z :: fbs) tl' (wlp ++ Some g :: wls))
    ∧ remaining tl' = remove_first g (remaining tl).
Proof.
  intros Hwl Hg%elem_of_remaining.
  destruct (index_remaining g tl Hg) as (idx & Hidx & Hlt & Hrem).
  exists (<[idx := None]> tl). split; [|done].
  unfold leftover_step.
  cbn [st_word_letters st_target_letters st_feedback].
  rewrite (list_lookup_middle wlp) by done. cbn [mbind option_bind].
  rewrite decide_True by done.
  rewrite (setitem_middle fbp) by done. cbn [mbind option_bind].
  rewrite Hidx. cbn [mbind option_bind].
  unfold setitem. by rewrite decide_True.
Qed.

(** The second pass, started at any position, follows the specification's
    pass over the letters that remain. *)
Lemma leftover_pass_from gs : ∀ ss (fbp : list Z) tl (wlp : list (option char)),
  length gs = length ss → length wlp = length fbp →
  ∃ tl', for_each leftover_step (seq (length fbp) (length gs))
           (Sim (fbp ++ exact_marks gs ss) tl (wlp ++ exact_rest gs ss))
         = Some (Sim (fbp ++ (mark_code <$> leftover_pass gs ss (remaining tl)))
                     tl' (wlp ++ exact_rest gs ss)).
Proof.
  induction gs as [|g gs IH]; intros [|s ss] fbp tl wlp Hlen Hwl; try done.
  { by exists tl. }
  simpl in Hlen. injection Hlen as Hlen.
  assert (∀ (f : Z) w tl1 pool, remaining tl1 = pool →
    ∃ tl', for_each leftover_step (seq (S (length fbp)) (length gs))
             (Sim (fbp ++ f :: exact_marks gs ss) tl1 (wlp ++ w :: exact_rest gs ss))
           = Some (Sim (fbp ++ f :: (mark_code <$> leftover_pass gs ss pool))
                       tl' (wlp ++ w :: exact_rest gs ss))) as Hrec.
  { intros f w tl1 pool <-.
    destruct (IH ss (fbp ++ [f]) tl1 (wlp ++ [w])) as [tl' Htl'];
      [done | by rewrite !length_snoc, Hwl|].
    rewrite !length_snoc, <-!app_assoc in Htl'. by exists tl'. }
  unfold exact_marks at 1, exact_rest at 1 2.
  cbn [length seq for_each zip_with leftover_pass].
  fold (exact_marks gs ss) (exact_rest gs ss).
  destruct (decide (g = s)) as [->|Hne].
  - rewrite leftover_step_consumed by done. cbn [mbind option_bind].
    by apply Hrec.
  - destruct (decide (g ∈ remaining tl)) as [Hin|Hnin].
    + destruct (leftover_step_present fbp 0%Z (exact_marks gs ss) tl wlp g
                  (exact_rest gs ss) Hwl Hin) as (tl1 & -> & Hrem).
      cbn [mbind option_bind]. by apply Hrec.
    + rewrite leftover_step_absent by done. cbn [mbind option_bind].
      by apply Hrec.
Qed.

Lemma remaining_exact_rest guess : ∀ secret,
  remaining (exact_rest secret guess) = unconsumed guess secret.
Proof.
  unfold remaining, exact_rest, unconsumed.
  induction guess as [|g guess IH]; intros [|s secret]; try done.
  cbn [zip_with omap list_omap]. rewrite filter_cons. simpl.
  destruct (decide (s = g)) as [->|Hne].
  - rewrite decide_False by tauto. simpl. apply IH.
  - rewrite decide_True by congruence. simpl. f_equal. apply IH.
Qed.

Lemma length_leftover_pass guess : ∀ secret pool,
  length guess = length secret →
  length (leftover_pass guess secret pool) = length guess.
Proof.
  induction guess as [|g guess IH]; intros [|s secret] pool Hlen; try done.
  simpl in *. injection Hlen as Hlen.
  repeat case_decide; simpl; by rewrite IH.
Qed.

(** The refinement: on words, the simulator computes the two-pass
    algorithm of the specification. *)
Lemma simulate_refines guess secret :
  is_word guess → is_word secret →
  simulate guess secret = pattern_marks (two_pass guess secret).
Proof.
  intros Hg Hs. unfold simulate. rewrite exact_pass by done.
  cbn [mbind option_bind].
  destruct (leftover_pass_from guess secret [] (exact_rest secret guess) [])
    as [tl' Hpass]; [unfold is_word in *; congruence | done |].
  unfold range5. unfold is_word in Hg. cbn [app length] in Hpass.
  rewrite Hg in Hpass. rewrite Hpass. cbn [mbind option_bind st_feedback].
  by rewrite remaining_exact_rest.
Qed.

Lemma pattern_marks_is_Some ms :
  length ms = 5 → ∃ m0 m1 m2 m3 m4,
    ms = [m0; m1; m2; m3; m4]
    ∧ pattern_marks ms
      = Some (mark_code m0, mark_code m1, mark_code m2, mark_code m3, mark_code m4).
Proof.
  intros Hlen. do 5 (destruct ms as [|? ms]; [done|]).
  destruct ms; [|done]. by do 5 eexists.
Qed.

Lemma simulate_total guess secret :
  is_word guess → is_word secret → is_Some (simulate guess secret).
Proof.
  intros Hg Hs. rewrite simulate_refines by done.
  destruct (pattern_marks_is_Some (two_pass guess secret))
    as (?&?&?&?&?&_&->); [|by eexists].
  unfold two_pass. rewrite length_leftover_pass; unfold is_word in *; congruence.
Qed.

(** ** Properties of the two-pass algorithm *)

Lemma leftover_pass_correct guess : ∀ secret pool i,
  length guess = length secret →
  leftover_pass guess secret pool !! i = Some CORRECT_POSITION
  ↔ i < length guess ∧ guess !! i = secret !! i.
Proof.
  induction guess as [|g guess IH]; intros [|s secret] pool i Hlen; try done.
  { simpl. split; [done | intros [? _]; lia]. }
  simpl in Hlen. injection Hlen as Hlen. cbn [leftover_pass].
  destruct i as [|i].
  - repeat case_decide; simpl; split; try done; try (intros _; split; [lia|congruence]).
    all: intros [_ [=]]; done.
  - assert (∀ m pool', (m :: leftover_pass guess secret pool') !! S i
                       = Some CORRECT_POSITION
              ↔ S i < S (length guess) ∧ guess !! i = secret !! i) as Hstep.
    { intros m pool'. simpl. rewrite IH by done. split; intros [? ?]; split; [lia|done|lia|done]. }
    repeat case_decide; apply Hstep.
Qed.

Lemma elem_of_remove_first x y pool : x ∈ remove_first y pool → x ∈ pool.
Proof.
  induction pool as [|z pool IH]; simpl; [done|].
  case_decide; rewrite !elem_of_cons; [tauto|]. intros [->|Hin]; [tauto|].
  right. by apply IH.
Qed.

Lemma leftover_pass_present guess : ∀ secret pool i x,
  leftover_pass guess secret pool !! i = Some PRESENT_ELSEWHERE →
  guess !! i = Some x → x ∈ pool ∧ secret !! i ≠ Some x.
Proof.
  induction guess as [|g guess IH]; intros [|s secret] pool i x; try done.
  cbn [leftover_pass]. destruct i as [|i]; simpl.
  - intros Hm [= ->]. repeat case_decide; simplify_eq. split; [done|congruence].
  - intros Hm Hx. repeat case_decide; simpl in Hm.
    + by eapply IH.
    + destruct (IH _ _ _ _ Hm Hx) as [Hin ?]. split; [|done].
      by eapply elem_of_remove_first.
    + by eapply IH.
Qed.

Lemma occurrences_cons L x w :
  occurrences L (x :: w) = (if decide (x = L) then 1 else 0) + occurrences L w.
Proof. unfold occurrences. rewrite filter_cons. by case_decide. Qed.

Lemma occurrences_remove_first L g pool :
  g ∈ pool →
  occurrences L pool
  = (if decide (g = L) then 1 else 0) + occurrences L (remove_first g pool).
Proof.
  induction pool as [|y pool IH]; [by intros ?%elem_of_nil|].
  intros Hin. simpl. destruct (decide (y = g)) as [->|Hne].
  - by rewrite occurrences_cons.
  - apply elem_of_cons in Hin as [?|Hin]; [congruence|].
    rewrite !occurrences_cons, (IH Hin). lia.
Qed.

Lemma marked_cons m L g guess m' ms :
  marked m L (g :: guess) (m' :: ms)
  = (if decide (g = L ∧ m' = m) then 1 else 0) + marked m L guess ms.
Proof. unfold marked. simpl. rewrite filter_cons. simpl. by case_decide. Qed.

(** Every PRESENT_ELSEWHERE consumes one instance from the pool. *)
Lemma leftover_pass_no_inflation L guess : ∀ secret pool,
  marked PRESENT_ELSEWHERE L guess (leftover_pass guess secret pool)
  ≤ occurrences L pool.
Proof.
  induction guess as [|g guess IH]; intros [|s secret] pool;
    try (unfold marked; simpl; rewrite ?zip_with_nil_r; simpl; lia).
  cbn [leftover_pass]. repeat case_decide; rewrite marked_cons.
  - rewrite decide_False by (by intros [_ [=]]). apply IH.
  - rewrite (occurrences_remove_first L g pool) by done.
    specialize (IH secret (remove_first g pool)).
    repeat case_decide; try lia; tauto.
  - rewrite decide_False by (by intros [_ [=]]). apply IH.
Qed.

Lemma exact_matches_cons L g guess s secret :
  exact_matches L (g :: guess) (s :: secret)
  = (if decide (g = L ∧ s = L) then 1 else 0) + exact_matches L guess secret.
Proof. unfold exact_matches. simpl. rewrite filter_cons. simpl. by case_decide. Qed.

(** The pool of the second pass: the secret without its exact matches. *)
Lemma occurrences_unconsumed L guess : ∀ secret,
  length guess = length secret →
  occurrences L (unconsumed guess secret) + exact_matches L guess secret
  = occurrences L secret.
Proof.
  induction guess as [|g guess IH]; intros [|s secret] Hlen; try done.
  simpl in Hlen. injection Hlen as Hlen.
  rewrite exact_matches_cons, occurrences_cons, <-(IH secret Hlen).
  unfold unconsumed. simpl. rewrite filter_cons. simpl.
  repeat case_decide; simpl; rewrite ?occurrences_cons;
    repeat case_decide; subst; try lia; try tauto; try congruence.
Qed.

Lemma leftover_pass_self w pool :
  leftover_pass w w pool = replicate (length w) CORRECT_POSITION.
Proof.
  induction w as [|x w IH]; [done|]. simpl. rewrite decide_True by done.
  by f_equal.
Qed.

Lemma length_two_pass guess secret :
  is_word guess → is_word secret → length (two_pass guess secret) = 5.
Proof.
  unfold is_word, two_pass. intros Hg Hs.
  rewrite length_leftover_pass; congruence.
Qed.

(** ** Claims about the feedback simulator *)

Lemma elem_of_unconsumed x guess : ∀ secret,
  x ∈ unconsumed guess secret → x ∈ secret.
Proof.
  unfold unconsumed. induction guess as [|g guess IH]; intros [|s secret];
    try by intros ?%elem_of_nil.
  simpl. rewrite filter_cons. simpl. case_decide; simpl.
  - intros [->|Hin]%elem_of_cons; [left|right; by apply IH].
  - intros Hin. right. by apply IH.
Qed.

Lemma mark_code_eq m1 m2 : mark_code m1 = mark_code m2 ↔ m1 = m2.
Proof. split; [by destruct m1, m2 | by intros ->]. Qed.

(** The tuple read off a list of five marks holds their integers. *)
Lemma pattern_list_marks (ms : list mark) p :
  length ms = 5 → pattern_marks ms = Some p → pattern_list p = mark_code <$> ms.
Proof.
  intros Hlen. destruct (pattern_marks_is_Some ms Hlen)
    as (m0 & m1 & m2 & m3 & m4 & -> & ->).
  by intros [= <-].
Qed.

Lemma codes_lookup (ms : list mark) (i : nat) m :
  (mark_code <$> ms) !! i = Some (mark_code m) ↔ ms !! i = Some m.
Proof.
  rewrite list_lookup_fmap. destruct (ms !! i) as [m'|]; simpl; [|done].
  split; [intros [= ->%mark_code_eq]; done | by intros [= ->]].
Qed.

Lemma coded_marked m L guess : ∀ ms,
  coded (mark_code m) L guess (mark_code <$> ms) = marked m L guess ms.
Proof.
  unfold coded, marked.
  induction guess as [|g guess IH]; intros [|m' ms];
    try (by simpl; rewrite ?zip_with_nil_r).
  rewrite fmap_cons.
  change (zip (g :: guess) (mark_code m' :: (mark_code <$> ms)))
    with ((g, mark_code m') :: zip guess (mark_code <$> ms)).
  change (zip (g :: guess) (m' :: ms)) with ((g, m') :: zip guess ms).
  rewrite !filter_cons. cbn [fst snd]. specialize (IH ms).
  repeat case_decide; cbn [length]; try lia;
    exfalso; rewrite mark_code_eq in *; tauto.
Qed.

(** C2. On words, the simulator returns a tuple [p] whose components are
    those of the two-pass exact-match-then-leftover algorithm: position [i]
    holds 2 exactly when guess and secret agree there; a position holding 1
    carries a letter that is among the secret letters no exact match
    consumed (and is not the secret's letter at that position); every
    component is 0, 1 or 2, and it is 0 where the letter does not occur in
    the secret; and for every letter L the positions holding 1 that carry L
    are at most the occurrences of L in the secret minus the exact matches
    on L. *)
Theorem simulate_two_pass guess secret :
  is_word guess → is_word secret →
  ∃ p, simulate guess secret = Some p
    ∧ pattern_list p = mark_code <$> two_pass guess secret
    ∧ (∀ i, i < 5 →
         pattern_list p !! i = Some 2%Z ↔ guess !! i = secret !! i)
    ∧ (∀ i x, pattern_list p !! i = Some 1%Z → guess !! i = Some x →
         x ∈ unconsumed guess secret ∧ secret !! i ≠ Some x)
    ∧ (∀ i, i < 5 →
         pattern_list p !! i = Some 0%Z ∨ pattern_list p !! i = Some 1%Z
         ∨ pattern_list p !! i = Some 2%Z)
    ∧ (∀ i x, guess !! i = Some x → x ∉ secret →
         pattern_list p !! i = Some 0%Z)
    ∧ (∀ L, exact_matches L guess secret ≤ occurrences L secret
          ∧ coded 1 L guess (pattern_list p)
            ≤ occurrences L secret - exact_matches L guess secret).
Proof.
  intros Hg Hs. destruct (simulate_total guess secret Hg Hs) as [p Hp].
  exists p. split; [done|].
  assert (length guess = length secret) as Hlen
    by (unfold is_word in *; congruence).
  pose proof (length_two_pass guess secret Hg Hs) as Hlen2.
  rewrite simulate_refines in Hp by done.
  rewrite (pattern_list_marks _ _ Hlen2 Hp). split; [done|].
  assert (∀ i, i < 5 → ∃ m, two_pass guess secret !! i = Some m) as Hmark.
  { intros i Hi. apply lookup_lt_is_Some_2. lia. }
  assert (∀ i x, two_pass guess secret !! i = Some PRESENT_ELSEWHERE →
            guess !! i = Some x →
            x ∈ unconsumed guess secret ∧ secret !! i ≠ Some x) as Hpresent.
  { intros i x. apply leftover_pass_present. }
  assert (∀ i, i < 5 → two_pass guess secret !! i = Some CORRECT_POSITION
                      ↔ guess !! i = secret !! i) as Hcorrect.
  { intros i Hi. unfold two_pass. rewrite leftover_pass_correct by done.
    unfold is_word in Hg. rewrite Hg. tauto. }
  split; [|split; [|split; [|split]]].
  - intros i Hi. rewrite (codes_lookup _ _ CORRECT_POSITION). by apply Hcorrect.
  - intros i x. rewrite (codes_lookup _ _ PRESENT_ELSEWHERE). apply Hpresent.
  - intros i Hi. destruct (Hmark i Hi) as [m Hm].
    rewrite (codes_lookup _ _ ABSENT), (codes_lookup _ _ PRESENT_ELSEWHERE),
      (codes_lookup _ _ CORRECT_POSITION), Hm.
    destruct m; auto.
  - intros i x Hx Hnin.
    assert (i < 5) as Hi.
    { apply lookup_lt_Some in Hx. unfold is_word in Hg. lia. }
    destruct (Hmark i Hi) as [m Hm]. rewrite (codes_lookup _ _ ABSENT), Hm.
    destruct m; [done| |].
    + destruct (Hpresent i x Hm Hx) as [Hin%elem_of_unconsumed _]. done.
    + apply Hcorrect in Hm; [|done]. rewrite Hx in Hm.
      exfalso. apply Hnin. by eapply list_elem_of_lookup_2.
  - intros L. pose proof (occurrences_unconsumed L guess secret Hlen) as Hocc.
    pose proof (leftover_pass_no_inflation L guess secret
                  (unconsumed guess secret)) as Hinfl.
    rewrite (coded_marked PRESENT_ELSEWHERE). unfold two_pass. lia.
Qed.

Lemma simulate_two_pass_witness :
  ∃ p, simulate (utf8 "аабба") (utf8 "бааав") = Some p
    ∧ pattern_list p = mark_code <$> two_pass (utf8 "аабба") (utf8 "бааав")
    ∧ (∀ i, i < 5 →
         pattern_list p !! i = Some 2%Z
         ↔ utf8 "аабба" !! i = utf8 "бааав" !! i)
    ∧ (∀ i x, pattern_list p !! i = Some 1%Z → utf8 "аабба" !! i = Some x →
         x ∈ unconsumed (utf8 "аабба") (utf8 "бааав")
         ∧ utf8 "бааав" !! i ≠ Some x)
    ∧ (∀ i, i < 5 →
         pattern_list p !! i = Some 0%Z ∨ pattern_list p !! i = Some 1%Z
         ∨ pattern_list p !! i = Some 2%Z)
    ∧ (∀ i x, utf8 "аабба" !! i = Some x → x ∉ utf8 "бааав" →
         pattern_list p !! i = Some 0%Z)
    ∧ (∀ L, exact_matches L (utf8 "аабба") (utf8 "бааав")
            ≤ occurrences L (utf8 "бааав")
          ∧ coded 1 L (utf8 "аабба") (pattern_list p)
            ≤ occurrences L (utf8 "бааав")
              - exact_matches L (utf8 "аабба") (utf8 "бааав")).
Proof. apply simulate_two_pass; reflexivity. Defined.

Example simulate_aabba :
  simulate (utf8 "аабба") (utf8 "бааав") = Some (1, 2, 1, 0, 1)%Z
  ∧ two_pass (utf8 "аабба") (utf8 "бааав")
    = [PRESENT_ELSEWHERE; CORRECT_POSITION; PRESENT_ELSEWHERE; ABSENT;
       PRESENT_ELSEWHERE].
Proof. by vm_compute. Qed.

(** C7. Guessing the secret itself: for every word [w], the simulator
    answers the all-CORRECT_POSITION pattern. *)
Theorem simulate_self w :
  is_word w →
  simulate w w = pattern_marks (replicate 5 CORRECT_POSITION)
  ∧ simulate w w = Some (2, 2, 2, 2, 2)%Z.
Proof.
  intros Hw.
  assert (simulate w w = pattern_marks (replicate 5 CORRECT_POSITION)) as ->.
  { rewrite simulate_refines by done. unfold two_pass.
    rewrite leftover_pass_self. unfold is_word in Hw. by rewrite Hw. }
  done.
Qed.

Lemma simulate_self_witness :
  simulate (utf8 "осень") (utf8 "осень")
    = pattern_marks (replicate 5 CORRECT_POSITION)
  ∧ simulate (utf8 "осень") (utf8 "осень") = Some (2, 2, 2, 2, 2)%Z.
Proof. apply simulate_self. reflexivity. Defined.

(** ** Filtering by two guesses *)

Lemma length_pattern_str p : length (pattern_str p) = 5.
Proof. by destruct p as [[[[??]?]?]?]. Qed.

(** The string typed for a simulated pattern spells its marks. *)
Lemma pattern_str_marks ms p :
  length ms = 5 → pattern_marks ms = Some p → pattern_str p = feedback_str ms.
Proof.
  intros Hlen. destruct (pattern_marks_is_Some ms Hlen)
    as (m0 & m1 & m2 & m3 & m4 & -> & ->).
  intros [= <-]. by destruct m0, m1, m2, m3, m4.
Qed.

Lemma filter_words_commute words g1 fb1 g2 fb2 :
  Forall is_word words →
  is_word g1 → length fb1 = 5 → is_word g2 → length fb2 = 5 →
  ∃ res,
    filter_words words g1 fb1 ≫= (λ ws, filter_words ws g2 fb2) = Some res
    ∧ filter_words words g2 fb2 ≫= (λ ws, filter_words ws g1 fb1) = Some res.
Proof.
  intros Hwords Hg1 Hfb1 Hg2 Hfb2.
  destruct (filter_words_total words g1 fb1) as (rc1 & Hrc1 & _ & Hres1);
    [done..|].
  destruct (filter_words_total words g2 fb2) as (rc2 & Hrc2 & _ & Hres2);
    [done..|].
  rewrite Hres1, Hres2. simpl.
  destruct (filter_words_total
              (filter (λ w, keep_word rc1 g1 fb1 w = Some true) words) g2 fb2)
    as (rc2' & Hrc2' & _ & ->); [by apply Forall_is_word_filter|done..|].
  destruct (filter_words_total
              (filter (λ w, keep_word rc2 g2 fb2 w = Some true) words) g1 fb1)
    as (rc1' & Hrc1' & _ & ->); [by apply Forall_is_word_filter|done..|].
  assert (rc1' = rc1) as -> by congruence.
  assert (rc2' = rc2) as -> by congruence.
  eexists. split; [done|]. f_equal.
  rewrite !list_filter_filter. apply list_filter_iff. tauto.
Qed.

(** C6. Order-independence: for a fixed secret [s], filtering the
    candidates by guess [A] and its simulated feedback and then by guess
    [B] and its simulated feedback leaves the same list as filtering by [B]
    first and [A] second. *)
Theorem filter_words_order_independent words A B s :
  Forall is_word words → is_word A → is_word B → is_word s →
  ∃ pA pB res,
    simulate A s = Some pA ∧ simulate B s = Some pB
    ∧ filter_words words A (pattern_str pA)
        ≫= (λ ws, filter_words ws B (pattern_str pB)) = Some res
    ∧ filter_words words B (pattern_str pB)
        ≫= (λ ws, filter_words ws A (pattern_str pA)) = Some res.
Proof.
  intros Hwords HA HB Hs.
  destruct (simulate_total A s HA Hs) as [pA HpA].
  destruct (simulate_total B s HB Hs) as [pB HpB].
  destruct (filter_words_commute words A (pattern_str pA) B (pattern_str pB))
    as (res & H1 & H2); [done | done | apply length_pattern_str | done
                         | apply length_pattern_str |].
  by exists pA, pB, res.
Qed.

Lemma filter_words_order_independent_witness :
  ∃ pA pB res,
    simulate (utf8 "опера") (utf8 "осень") = Some pA
    ∧ simulate (utf8 "огонь") (utf8 "осень") = Some pB
    ∧ filter_words (utf8 <$> ["огонь"; "опера"; "облик"; "осень"; "охота"]%string)
        (utf8 "опера") (pattern_str pA)
        ≫= (λ ws, filter_words ws (utf8 "огонь") (pattern_str pB)) = Some res
    ∧ filter_words (utf8 <$> ["огонь"; "опера"; "облик"; "осень"; "охота"]%string)
        (utf8 "огонь") (pattern_str pB)
        ≫= (λ ws, filter_words ws (utf8 "опера") (pattern_str pA)) = Some res.
Proof.
  apply filter_words_order_independent;
    [repeat constructor | reflexivity | reflexivity | reflexivity].
Defined.

(** C8. The scenario of the specification: guessing ОПЕРА when the secret
    is ОСЕНЬ gives CORRECT_POSITION at positions 0 and 2 and ABSENT at 1, 3
    and 4, that is the pattern 20200; filtering the five-word dictionary by
    that guess and feedback leaves ОСЕНЬ alone, which is exactly the
    dictionary words consistent with the feedback and exactly the words
    that would have produced it; ОПЕРА is not among them. *)
Theorem scenario_opera_osen :
  let dictionary := utf8 <$> ["огонь"; "опера"; "облик"; "осень"; "охота"]%string in
  simulate (utf8 "опера") (utf8 "осень") = Some (2, 0, 2, 0, 0)%Z
  ∧ simulate (utf8 "опера") (utf8 "осень")
    = pattern_marks [CORRECT_POSITION; ABSENT; CORRECT_POSITION; ABSENT; ABSENT]
  ∧ pattern_str (2, 0, 2, 0, 0)%Z = utf8 "20200"
  ∧ feedback_str [CORRECT_POSITION; ABSENT; CORRECT_POSITION; ABSENT; ABSENT]
    = utf8 "20200"
  ∧ filter_words dictionary (utf8 "опера") (utf8 "20200") = Some [utf8 "осень"]
  ∧ (utf8 "опера" ∉ [utf8 "осень"])
  ∧ (∀ c, c ∈ [utf8 "осень"]
       ↔ c ∈ dictionary ∧ consistent (utf8 "опера") (utf8 "20200") c)
  ∧ filter (λ t, simulate (utf8 "опера") t = Some (2, 0, 2, 0, 0)%Z) dictionary
    = [utf8 "осень"].
Proof.
  intros dictionary.
  assert (filter_words dictionary (utf8 "опера") (utf8 "20200")
          = Some [utf8 "осень"]) as Hres by by vm_compute.
  split; [by vm_compute|]. split; [by vm_compute|]. split; [by vm_compute|].
  split; [by vm_compute|].
  split; [done|]. split; [by intros [=]%list_elem_of_singleton|].
  split; [|by vm_compute].
  destruct (filter_words_spec dictionary (utf8 "опера") (utf8 "20200"))
    as (res & Hres' & _ & Hin); [by repeat constructor | done | done |].
  rewrite Hres in Hres'. injection Hres' as <-. exact Hin.
Qed.

(** ** The score: [evaluate_word] *)

Lemma bucket_cons w t pool p :
  bucket w (t :: pool) p
  = (if decide (simulate w t = Some p) then 1 else 0) + bucket w pool p.
Proof. unfold bucket. rewrite filter_cons. by case_decide. Qed.

Lemma bucket_pos w pool p :
  0 < bucket w pool p ↔ ∃ t, t ∈ pool ∧ simulate w t = Some p.
Proof.
  induction pool as [|t pool IH].
  - unfold bucket. simpl. split; [lia|]. by intros (t & ?%elem_of_nil & _).
  - rewrite bucket_cons. case_decide as Hp.
    + split; [|lia]. intros _. exists t. split; [left|done].
    + rewrite Nat.add_0_l, IH. split; intros (t' & Hin & Ht').
      * exists t'. split; [by right|done].
      * apply elem_of_cons in Hin as [->|Hin]; [done|]. by exists t'.
Qed.

(** The tallying loop counts, for each pattern, the words answering it. *)
Lemma tally_loop w pool : ∀ (m0 : gmap pattern nat),
  is_word w → Forall is_word pool →
  ∃ m, for_each (tally w) pool m0 = Some m
    ∧ ∀ p, m !! p = if decide (bucket w pool p = 0) then m0 !! p
                    else Some (default 0 (m0 !! p) + bucket w pool p).
Proof.
  induction pool as [|t pool IH]; intros m0 Hw Hpool.
  - exists m0. split; [done|]. intros p. by rewrite decide_True.
  - apply Forall_cons in Hpool as [Ht Hpool].
    destruct (simulate_total w t Hw Ht) as [q Hq].
    cbn [for_each].
    assert (tally w t m0 = Some (<[q := default 0 (m0 !! q) + 1]> m0)) as ->
      by (unfold tally; by rewrite Hq).
    cbn [mbind option_bind].
    destruct (IH (<[q := default 0 (m0 !! q) + 1]> m0) Hw Hpool) as (m & -> & Hm).
    exists m. split; [done|]. intros p. rewrite Hm, bucket_cons, Hq.
    rewrite lookup_insert.
    destruct (decide (q = p)) as [->|Hne].
    + rewrite (decide_True (P := Some p = Some p)) by done.
      rewrite (decide_False (P := 1 + _ = 0)) by lia.
      case_decide as H0; [rewrite H0|]; simpl; f_equal; lia.
    + rewrite (decide_False (P := Some q = Some p)) by congruence.
      by rewrite Nat.add_0_l.
Qed.

Lemma max_list_same_elems (l1 l2 : list nat) :
  (∀ n, n ∈ l1 ↔ n ∈ l2) → max_list l1 = max_list l2.
Proof.
  assert (∀ k1 k2 : list nat, (∀ n, n ∈ k1 → n ∈ k2) → max_list k1 ≤ max_list k2)
    as Hle.
  { intros k1 k2 Hsub. destruct k1 as [|x k1]; [simpl; lia|].
    apply max_list_elem_of_le, Hsub, max_list_elem_of. done. }
  intros Hiff. apply Nat.le_antisymm; apply Hle; intros n; apply Hiff.
Qed.

Lemma evaluate_word_worst_case w pool :
  is_word w → Forall is_word pool →
  evaluate_word w pool = Some (worst_case w pool).
Proof.
  intros Hw Hpool. unfold evaluate_word.
  destruct (tally_loop w pool ∅ Hw Hpool) as (m & -> & Hm).
  cbn [mbind option_bind]. f_equal.
  assert (max_values m = worst_case w pool) as <-.
  { unfold max_values, worst_case. apply max_list_same_elems. intros n.
    rewrite !list_elem_of_fmap. split.
    - intros ([p n'] & -> & Hpn). apply elem_of_map_to_list in Hpn.
      rewrite Hm, lookup_empty in Hpn. case_decide as H0; [done|].
      simpl in Hpn. injection Hpn as <-. exists p. split; [done|].
      apply elem_of_remove_dups, list_elem_of_omap.
      destruct (proj1 (bucket_pos w pool p)) as (t & Hin & Ht); [lia|].
      by exists t.
    - intros (p & -> & Hp). apply elem_of_remove_dups, list_elem_of_omap in Hp.
      destruct Hp as (t & Hin & Ht).
      exists (p, bucket w pool p). split; [done|].
      apply elem_of_map_to_list. rewrite Hm, lookup_empty.
      rewrite decide_False; [done|].
      assert (0 < bucket w pool p); [|lia]. apply bucket_pos. by exists t. }
  case_decide as Hempty; [|done]. subst m. unfold max_values.
  by rewrite map_to_list_empty.
Qed.

(** ** The guess selector *)

Lemma score_lt_trans a b best :
  a < b → score_lt b best = true → score_lt a best = true.
Proof.
  destruct best as [|n]; simpl; [done|]. rewrite !Nat.ltb_lt. lia.
Qed.

Lemma score_lt_between a b best :
  score_lt a best = true → score_lt b best = false → a < b.
Proof.
  destruct best as [|n]; simpl; [done|]. rewrite Nat.ltb_lt, Nat.ltb_ge. lia.
Qed.

(** The scanning loop keeps the first candidate of least score, if any
    candidate beats the score it starts with. *)
Lemma scan_loop pw cs : ∀ b sc,
  Forall is_word pw → Forall is_word cs →
  ∃ b' sc', for_each (scan pw) cs (b, sc) = Some (b', sc')
    ∧ ((b' = b ∧ sc' = sc
          ∧ ∀ c, c ∈ cs → score_lt (worst_case c pw) sc = false)
       ∨ ∃ k, cs !! k = Some b' ∧ sc' = Fin (worst_case b' pw)
          ∧ score_lt (worst_case b' pw) sc = true
          ∧ (∀ j c, j < k → cs !! j = Some c →
               worst_case b' pw < worst_case c pw)
          ∧ (∀ j c, cs !! j = Some c → worst_case b' pw ≤ worst_case c pw)).
Proof.
  induction cs as [|c cs IH]; intros b sc Hpw Hcs.
  - exists b, sc. split; [done|]. left. split; [done|]. split; [done|].
    by intros c ?%elem_of_nil.
  - apply Forall_cons in Hcs as [Hc Hcs]. cbn [for_each].
    assert (scan pw c (b, sc)
            = Some (if score_lt (worst_case c pw) sc
                    then (c, Fin (worst_case c pw)) else (b, sc))) as ->.
    { unfold scan. rewrite evaluate_word_worst_case by done. simpl.
      by destruct (score_lt _ _). }
    cbn [mbind option_bind].
    destruct (score_lt (worst_case c pw) sc) eqn:Hlt.
    + destruct (IH c (Fin (worst_case c pw)) Hpw Hcs)
        as (b' & sc' & -> & [(-> & -> & Hrest)|(k & Hk & -> & Hb' & Hbefore & Hall)]).
      * exists c, (Fin (worst_case c pw)). split; [done|]. right. exists 0.
        split; [done|]. split; [done|]. split; [done|]. split; [intros; lia|].
        intros [|j] c'; simpl.
        -- by intros [= <-].
        -- intros Hj%list_elem_of_lookup_2. specialize (Hrest c' Hj).
           simpl in Hrest. apply Nat.ltb_ge in Hrest. lia.
      * exists b', (Fin (worst_case b' pw)). split; [done|]. right. exists (S k).
        simpl in Hb'. apply Nat.ltb_lt in Hb'.
        split; [done|]. split; [done|]. split; [by eapply score_lt_trans|].
        split.
        -- intros [|j] c'; simpl; [by intros _ [= <-]|].
           intros Hj. apply Hbefore. lia.
        -- intros [|j] c'; simpl; [intros [= <-]; lia|]. apply Hall.
    + destruct (IH b sc Hpw Hcs)
        as (b' & sc' & -> & [(-> & -> & Hrest)|(k & Hk & -> & Hb' & Hbefore & Hall)]).
      * exists b, sc. split; [done|]. left. split; [done|]. split; [done|].
        intros c' [->|Hin]%elem_of_cons; [done|]. by apply Hrest.
      * exists b', (Fin (worst_case b' pw)). split; [done|]. right. exists (S k).
        pose proof (score_lt_between _ _ _ Hb' Hlt) as Hc'.
        split; [done|]. split; [done|]. split; [done|]. split.
        -- intros [|j] c'; simpl; [by intros _ [= <-]|].
           intros Hj. apply Hbefore. lia.
        -- intros [|j] c'; simpl; [intros [= <-]; lia|]. apply Hall.
Qed.

Lemma Forall_is_word_take n (ws : list str) :
  Forall is_word ws → Forall is_word (take n ws).
Proof. apply Forall_take. Qed.

(** What the selector returns, in terms of the worst-case bucket sizes. *)
Lemma get_best_guess_spec possible_words all_words :
  possible_words ≠ [] → Forall is_word possible_words →
  ∃ best, get_best_guess possible_words all_words = Some best
    ∧ (length possible_words ≤ 2 → possible_words !! 0 = Some best)
    ∧ (2 < length possible_words →
         ∃ k, k < 50 `min` length possible_words
           ∧ possible_words !! k = Some best
           ∧ (∀ j w, j < 50 `min` length possible_words →
                possible_words !! j = Some w →
                worst_case best possible_words ≤ worst_case w possible_words)
           ∧ (∀ j w, j < k → possible_words !! j = Some w →
                worst_case best possible_words < worst_case w possible_words))
    ∧ (∀ w, is_word w →
         evaluate_word w possible_words = Some (worst_case w possible_words)).
Proof.
  intros Hne Hpw. unfold get_best_guess.
  destruct possible_words as [|w0 rest] eqn:Heq; [done|]. rewrite <-Heq in *.
  assert (possible_words !! 0 = Some w0) as H0 by by rewrite Heq.
  case_decide as Hlen.
  - exists w0. split; [done|]. split; [done|]. split; [lia|].
    intros w Hw. by apply evaluate_word_worst_case.
  - set (limit := 50 `min` length possible_words).
    assert (0 < limit) as Hlimit by (unfold limit; lia).
    assert (take limit possible_words !! 0 = Some w0) as ->.
    { rewrite lookup_take_lt by done. done. }
    cbn [mbind option_bind].
    destruct (scan_loop possible_words (take limit possible_words) w0 Inf Hpw)
      as (b' & sc' & -> & [(_ & _ & Hrest)|(k & Hk & _ & _ & Hbefore & Hall)]).
    { by apply Forall_is_word_take. }
    { exfalso. specialize (Hrest w0). simpl in Hrest.
      assert (w0 ∈ take limit possible_words) as Hin; [|by specialize (Hrest Hin)].
      apply list_elem_of_lookup. by exists 0; rewrite lookup_take_lt. }
    cbn [mbind option_bind fst]. exists b'. split; [done|]. split; [lia|].
    split; [|intros w Hw; by apply evaluate_word_worst_case].
    intros _. apply lookup_take_Some in Hk as [Hk Hklt].
    exists k. split; [done|]. split; [done|]. split.
    + intros j w Hj Hw. apply (Hall j). by rewrite lookup_take_lt.
    + intros j w Hj Hw. apply (Hbefore j); [done|].
      rewrite lookup_take_lt by lia. done.
Qed.

(** C3. Minimax guess selection.  On a non-empty list of candidate words
    the selector returns; with at most two candidates it returns the first
    one; otherwise it returns a candidate among the first min(50, n), whose
    score is least among those and strictly less than the score of every
    earlier one, where the score of [w], which is what [evaluate_word]
    computes, is the largest number of words of the whole candidate list
    that share one simulated pattern against [w]. *)
Theorem get_best_guess_minimax possible_words all_words :
  possible_words ≠ [] → Forall is_word possible_words →
  ∃ best, get_best_guess possible_words all_words = Some best
    ∧ (length possible_words ≤ 2 → possible_words !! 0 = Some best)
    ∧ (2 < length possible_words →
         ∃ k, k < 50 `min` length possible_words
           ∧ possible_words !! k = Some best
           ∧ (∀ j w, j < 50 `min` length possible_words →
                possible_words !! j = Some w →
                worst_case best possible_words ≤ worst_case w possible_words)
           ∧ (∀ j w, j < k → possible_words !! j = Some w →
                worst_case best possible_words < worst_case w possible_words))
    ∧ (∀ w, is_word w →
         evaluate_word w possible_words = Some (worst_case w possible_words)).
Proof. apply get_best_guess_spec. Qed.

Lemma get_best_guess_minimax_witness :
  ∃ best, get_best_guess scenario_words [] = Some best
    ∧ (length scenario_words ≤ 2 → scenario_words !! 0 = Some best)
    ∧ (2 < length scenario_words →
         ∃ k, k < 50 `min` length scenario_words
           ∧ scenario_words !! k = Some best
           ∧ (∀ j w, j < 50 `min` length scenario_words →
                scenario_words !! j = Some w →
                worst_case best scenario_words ≤ worst_case w scenario_words)
           ∧ (∀ j w, j < k → scenario_words !! j = Some w →
                worst_case best scenario_words < worst_case w scenario_words))
    ∧ (∀ w, is_word w →
         evaluate_word w scenario_words = Some (worst_case w scenario_words)).
Proof.
  apply get_best_guess_minimax; [discriminate | repeat constructor].
Defined.

Example get_best_guess_scenario :
  get_best_guess scenario_words [] = Some (utf8 "огонь")
  ∧ worst_case (utf8 "огонь") scenario_words = 2
  ∧ worst_case (utf8 "опера") scenario_words = 2
  ∧ worst_case (utf8 "облик") scenario_words = 4.
Proof. by vm_compute. Qed.

(** ** The order of strings and the sorted dictionary *)

Lemma str_leb_total a : ∀ b, str_leb a b = true ∨ str_leb b a = true.
Proof.
  induction a as [|x a IH]; intros [|y b]; simpl; auto.
  destruct (N.ltb_spec x y), (N.ltb_spec y x), (N.eqb_spec x y), (N.eqb_spec y x);
    auto; lia.
Qed.

Lemma str_leb_trans a : ∀ b c,
  str_leb a b = true → str_leb b c = true → str_leb a c = true.
Proof.
  induction a as [|x a IH]; intros [|y b] [|z c]; simpl; try done.
  destruct (N.ltb_spec x y), (N.ltb_spec y z), (N.ltb_spec x z),
    (N.eqb_spec x y), (N.eqb_spec y z), (N.eqb_spec x z);
    try done; try lia. apply IH.
Qed.

Lemma str_leb_antisym a : ∀ b,
  str_leb a b = true → str_leb b a = true → a = b.
Proof.
  induction a as [|x a IH]; intros [|y b]; simpl; try done.
  destruct (N.ltb_spec x y), (N.ltb_spec y x), (N.eqb_spec x y), (N.eqb_spec y x);
    try done; try lia. intros ??. subst. f_equal. by apply IH.
Qed.

#[local] Instance str_le_total : Total str_le.
Proof.
  intros a b. unfold str_le. destruct (str_leb_total a b) as [->| ->]; simpl; auto.
Qed.

#[local] Instance str_le_trans : Transitive str_le.
Proof.
  intros a b c. unfold str_le. intros Hab%Is_true_true Hbc%Is_true_true.
  apply Is_true_true. by eapply str_leb_trans.
Qed.

Lemma str_le_antisym a b : str_le a b → str_le b a → a = b.
Proof.
  unfold str_le. intros Hab%Is_true_true Hba%Is_true_true.
  by apply str_leb_antisym.
Qed.

(** A sorted list without repetition is strictly sorted. *)
Lemma StronglySorted_str_lt (l : list str) :
  StronglySorted str_le l → NoDup l → StronglySorted str_lt l.
Proof.
  induction 1 as [|x l Hl IH Hx]; intros Hnd; [constructor|].
  apply NoDup_cons in Hnd as [Hnin Hnd]. constructor; [by apply IH|].
  rewrite Forall_forall in Hx |- *. intros y Hy. split; [by apply Hx|].
  intros ->. done.
Qed.

(** A subsequence of a sorted list is sorted. *)
Lemma StronglySorted_sublist {A} (R : relation A) (l1 l2 : list A) :
  l1 `sublist_of` l2 → StronglySorted R l2 → StronglySorted R l1.
Proof.
  induction 1 as [|x l1 l2 Hsub IH|x l1 l2 Hsub IH]; intros Hsorted.
  - constructor.
  - apply StronglySorted_inv in Hsorted as [Hl2 Hx]. constructor; [by apply IH|].
    rewrite Forall_forall in Hx |- *. intros y Hy. apply Hx.
    by eapply sublist_subseteq.
  - apply StronglySorted_inv in Hsorted as [Hl2 _]. by apply IH.
Qed.

Lemma sorted_elements (X : gset str) :
  StronglySorted str_lt (merge_sort str_le (elements X)).
Proof.
  apply StronglySorted_str_lt; [apply (StronglySorted_merge_sort _)|].
  rewrite merge_sort_Permutation. apply NoDup_elements.
Qed.

Lemma elem_of_sorted_elements (X : gset str) w :
  w ∈ merge_sort str_le (elements X) ↔ w ∈ X.
Proof. by rewrite merge_sort_Permutation, elem_of_elements. Qed.

Section dictionary_proofs.
Context `{Builtins}.

Lemma collect_words lines : ∀ (acc : gset str) w,
  w ∈ foldl (λ words line,
        let w := normalize_word line in
        if is_valid_five_letter_word w then {[w]} ∪ words else words) acc lines
  ↔ w ∈ acc ∨ ∃ line, line ∈ lines ∧ w = normalize_word line
                 ∧ is_valid_five_letter_word w = true.
Proof.
  induction lines as [|line lines IH]; intros acc w; simpl.
  - split; [by left|]. intros [?|(? & ?%elem_of_nil & _)]; done.
  - rewrite IH. destruct (is_valid_five_letter_word (normalize_word line)) eqn:Hv.
    + rewrite elem_of_union, elem_of_singleton. split.
      * intros [[->|?]|(l & ? & ? & ?)]; [right|by left|right].
        -- exists line. split; [left|done].
        -- exists l. split; [by right|done].
      * intros [?|(l & [->|?]%elem_of_cons & -> & ?)]; [left; by right| |right].
        -- left. by left.
        -- by exists l.
    + split.
      * intros [?|(l & ? & ? & ?)]; [by left|right]. exists l. split; [by right|done].
      * intros [?|(l & [->|?]%elem_of_cons & -> & Hv')]; [by left|congruence|right].
        by exists l.
Qed.

(** The loaded dictionary is strictly sorted and holds valid words only. *)
Lemma get_nouns_sorted path : StronglySorted str_lt (get_nouns path).
Proof.
  unfold get_nouns. destruct path; try constructor. simpl.
  apply sorted_elements.
Qed.

Lemma get_nouns_valid path w :
  w ∈ get_nouns path → is_valid_five_letter_word w = true.
Proof.
  unfold get_nouns. destruct path; try by intros ?%elem_of_nil. simpl.
  intros Hw%elem_of_sorted_elements. apply collect_words in Hw as [Hw|(l & _ & _ & Hv)]; [|done].
  by apply not_elem_of_empty in Hw.
Qed.

(** C9. Adding a word whose normalized form is already in the dictionary:
    the call returns [True], so the process exits with code 0, prints that
    the word is present, and writes nothing: the dictionary file is the one
    it was. *)
Theorem add_word_already_present word writable path :
  normalize_word word ∈ get_nouns path →
  add_word_to_dict word writable path
    = (true, path, [MsgPresent (normalize_word word)])
  ∧ main_add_word word writable path = (0%Z, path).
Proof.
  intros Hin. assert (add_word_to_dict word writable path
                      = (true, path, [MsgPresent (normalize_word word)])) as Hadd.
  { unfold add_word_to_dict. rewrite (get_nouns_valid path _ Hin). simpl.
    by rewrite decide_True. }
  split; [done|]. unfold main_add_word. by rewrite Hadd.
Qed.

End dictionary_proofs.

Lemma add_word_already_present_witness :
  @add_word_to_dict basic_builtins (utf8 " Опе-ра ") true scenario_file
    = (true, scenario_file,
       [MsgPresent (@normalize_word basic_builtins (utf8 " Опе-ра "))])
  ∧ @main_add_word basic_builtins (utf8 " Опе-ра ") true scenario_file
    = (0%Z, scenario_file).
Proof.
  apply (@add_word_already_present basic_builtins).
  apply (bool_decide_unpack _). vm_compute. exact I.
Defined.

(** The loader validates the line normalized twice but stores it
    normalized once: a line such as "-<TAB>абвгд" loads as a six-character
    entry.  This is why the results on the game loop assume a dictionary
    of words. *)
Example get_nouns_not_a_word :
  @get_nouns basic_builtins (Text ([45%N; 9%N] ++ utf8 "абвгд" ++ [10%N]))
  = [9%N :: utf8 "абвгд"].
Proof. by vm_compute. Qed.

Example add_word_new :
  @add_word_to_dict basic_builtins (utf8 "облик") true scenario_file
  = (true,
     Text (utf8 "облик" ++ [10%N] ++ utf8 "огонь" ++ [10%N]
           ++ utf8 "опера" ++ [10%N] ++ utf8 "осень" ++ [10%N]),
     [MsgAdded (utf8 "облик") 4]).
Proof. by vm_compute. Qed.

(** ** The game loop *)

Section game_proofs.
Context `{Builtins}.

(** The prompt only returns five characters among 0, 1 and 2. *)
Lemma get_feedback_interactive_valid guess stdin fb stdin' :
  get_feedback_interactive guess stdin = Some (fb, stdin') →
  length fb = 5 ∧ Forall (λ ch, ch ∈ [c0; c1; c2]) fb.
Proof.
  induction stdin as [|line stdin IH]; simpl; [done|].
  case_bool_decide as Hbad; [done|]. intros [= <- <-].
  split.
  - destruct (decide (length (strip line) = 5)); [done|].
    exfalso. apply Hbad. by left.
  - apply Forall_forall. intros ch Hch.
    destruct (decide (ch ∈ [c0; c1; c2])) as [|Hnin]; [done|].
    exfalso. apply Hbad. right. apply Exists_exists. by exists ch.
Qed.

Lemma round_Next all_words first_guess attempt possible_words stdin out pw' stdin' :
  round all_words first_guess attempt possible_words stdin = Next out pw' stdin' →
  ∃ guess fb, filter_words possible_words guess fb = Some pw'.
Proof.
  unfold round. repeat case_decide; try done.
  - by destruct (possible_words !! 0).
  - destruct (choose_guess _ _ _ _) as [guess|]; [|done].
    destruct (get_feedback_interactive guess stdin) as [[fb stdin1]|]; [|done].
    case_decide; [done|].
    destruct (filter_words possible_words guess fb) as [pw1|] eqn:Hf; [|done].
    intros [= _ <- _]. by exists guess, fb.
Qed.

Lemma filter_words_sublist words guess feedback res :
  filter_words words guess feedback = Some res → res `sublist_of` words.
Proof.
  intros (rc & _ & ->)%filter_words_Some. apply sublist_filter.
Qed.

Lemma at_round_inv all_words first_guess stdin0 attempt possible_words stdin :
  at_round all_words first_guess stdin0 attempt possible_words stdin →
  possible_words `sublist_of` all_words ∧ 1 ≤ attempt ≤ 6 ∧ all_words ≠ [].
Proof.
  induction 1 as [|attempt pw stdin out pw' stdin' _ (IH & Hle & Hne) Hlt Hround].
  - split; [done|]. split; [lia|done].
  - split; [|split; [lia|done]].
    apply round_Next in Hround as (guess & fb & Hf%filter_words_sublist).
    by etrans.
Qed.

Lemma attempts_made_app out1 out2 :
  attempts_made (out1 ++ out2) = attempts_made out1 + attempts_made out2.
Proof. unfold attempts_made. by rewrite filter_app, length_app. Qed.

Lemma attempts_made_last_report attempt pw : attempts_made (last_report attempt pw) = 0.
Proof.
  unfold last_report. repeat case_decide; try done. by destruct (pw !! 0).
Qed.

Lemma attempts_made_round all_words first_guess attempt possible_words stdin :
  match round all_words first_guess attempt possible_words stdin with
  | Stop out | Crash out | Next out _ _ => attempts_made out ≤ 1
  end.
Proof.
  unfold round. repeat case_decide; try (compute; lia).
  - destruct (possible_words !! 0); compute; lia.
  - destruct (choose_guess _ _ _ _) as [guess|]; [|compute; lia].
    destruct (get_feedback_interactive guess stdin) as [[fb stdin1]|];
      [|compute; lia].
    case_decide; [compute; lia|].
    destruct (filter_words possible_words guess fb) as [pw1|]; [|compute; lia].
    rewrite !attempts_made_app, attempts_made_last_report. compute. lia.
Qed.

Lemma attempts_made_game_loop all_words first_guess attempts :
  ∀ possible_words stdin,
  attempts_made (game_loop all_words first_guess attempts possible_words stdin).1
  ≤ length attempts.
Proof.
  induction attempts as [|attempt later IH]; intros pw stdin; simpl.
  - compute. lia.
  - pose proof (attempts_made_round all_words first_guess attempt pw stdin) as Hr.
    destruct (round all_words first_guess attempt pw stdin)
      as [out|out|out pw' stdin']; simpl; try lia.
    specialize (IH pw' stdin').
    destruct (game_loop all_words first_guess later pw' stdin') as [out' e].
    simpl in *. rewrite attempts_made_app. lia.
Qed.

(** A round the loop reaches is where the rest of the run starts. *)
Lemma at_round_run all_words first_guess stdin0 attempt possible_words stdin :
  at_round all_words first_guess stdin0 attempt possible_words stdin →
  ∃ before,
    game_loop all_words first_guess (seq 1 6) all_words stdin0
    = (before ++ (game_loop all_words first_guess (seq attempt (7 - attempt))
                    possible_words stdin).1,
       (game_loop all_words first_guess (seq attempt (7 - attempt))
          possible_words stdin).2).
Proof.
  induction 1 as [|attempt pw stdin out pw' stdin' Hat [before IH] Hlt Hround].
  - exists []. cbn [app]. change (7 - 1) with 6.
    by destruct (game_loop all_words first_guess (seq 1 6) all_words stdin0).
  - exists (before ++ out). rewrite IH.
    replace (7 - attempt) with (S (7 - S attempt)) by lia.
    cbn [seq game_loop]. rewrite Hround.
    destruct (game_loop all_words first_guess (seq (S attempt) (7 - S attempt))
                pw' stdin') as [out' e].
    simpl. by rewrite app_assoc.
Qed.

Lemma choose_guess_word all_words first_guess attempt possible_words :
  Forall is_word all_words → possible_words `sublist_of` all_words →
  2 ≤ length possible_words →
  ∃ guess, choose_guess all_words first_guess attempt possible_words = Some guess
    ∧ is_word guess.
Proof.
  intros Hall Hsub Hlen.
  assert (Forall is_word possible_words) as Hpw.
  { rewrite Forall_forall in Hall |- *. intros w Hw. apply Hall.
    by eapply sublist_subseteq. }
  assert (∀ k w, possible_words !! k = Some w → is_word w) as Hlookup.
  { intros k w Hk. rewrite Forall_forall in Hpw.
    by apply Hpw, list_elem_of_lookup_2 with k. }
  destruct possible_words as [|w0 rest] eqn:Heq; [simpl in Hlen; lia|].
  rewrite <-Heq in *. assert (possible_words !! 0 = Some w0) as H0 by by rewrite Heq.
  unfold choose_guess. repeat case_decide.
  - exists first_guess. split; [done|]. rewrite Forall_forall in Hall. by apply Hall.
  - exists w0. split; [done|]. by eapply Hlookup.
  - destruct (get_best_guess_spec possible_words all_words)
      as (best & Hbest & Hshort & Hlong & _); [by rewrite Heq | done |].
    exists best. split; [done|].
    destruct (decide (length possible_words ≤ 2)) as [Hle|Hgt].
    + eapply Hlookup. by apply Hshort.
    + destruct Hlong as (k & _ & Hk & _); [lia|]. by eapply Hlookup.
Qed.

End game_proofs.

(** ** Claims about the game loop *)

Section game_claims.
Context `{Builtins}.

(** X23. The game loop.  A run announces at most six guesses.  A round the
    loop reaches, on a dictionary of words, is one of the six, continues
    the run from there, and goes in this order: with no candidate it stops
    and reports the failure; with a single candidate it stops and reports
    that word, asking nothing; otherwise it chooses a guess and asks for
    the feedback (the run is aborted only if there is no answer to read);
    on the all-CORRECT_POSITION answer it stops and reports the guess,
    filtering nothing; on any other answer it filters the candidates and
    goes on with them.  After the sixth round the filtered candidates, if
    any, are reported with their first word as the chosen one, and the
    loop ends. *)
Theorem game_loop_rounds path first_guess stdin0 attempt possible_words stdin :
  Forall is_word (get_nouns path) →
  at_round (get_nouns path) (normalize_word first_guess) stdin0
    attempt possible_words stdin →
  let all_words := get_nouns path in
  let fg := normalize_word first_guess in
  let result := round all_words fg attempt possible_words stdin in
  let rest := game_loop all_words fg (seq attempt (7 - attempt))
                possible_words stdin in
  attempts_made (solve_wordle path first_guess stdin0).1 ≤ 6
  ∧ 1 ≤ attempt ≤ 6
  ∧ (∃ before, solve_wordle path first_guess stdin0 = (before ++ rest.1, rest.2))
  ∧ (possible_words = [] → result = Stop [NoWordsLeft])
  ∧ (∀ w, possible_words = [w] → result = Stop [Solved w])
  ∧ (2 ≤ length possible_words →
       ∃ guess, choose_guess all_words fg attempt possible_words = Some guess
         ∧ match get_feedback_interactive guess stdin with
           | None => result = Crash [Attempt attempt guess]
           | Some (fb, stdin') =>
               if decide (fb = all_correct)
               then result = Stop [Attempt attempt guess; Feedback guess fb;
                                   Solved guess]
               else ∃ pw', filter_words possible_words guess fb = Some pw'
                      ∧ result
                        = Next ([Attempt attempt guess; Feedback guess fb;
                                 Remaining (length pw')]
                                  ++ last_report attempt pw') pw' stdin'
           end)
  ∧ (∀ a pw, a ≠ 6 → last_report a pw = [])
  ∧ (∀ w pw, last_report 6 (w :: pw) = [LastAttempt w (w :: pw)])
  ∧ (attempt = 6 → ∀ out pw' stdin',
       result = Next out pw' stdin' → rest = (out ++ [Finished], Returned)).
Proof.
  intros Hwords Hat all_words fg result rest.
  destruct (at_round_inv _ _ _ _ _ _ Hat) as (Hsub & Hattempt & Hne).
  split; [|split; [done|split; [|split; [|split; [|split; [|split; [|split]]]]]]].
  - unfold solve_wordle. case_decide; [compute; lia|].
    apply (attempts_made_game_loop _ _ (seq 1 6)).
  - unfold solve_wordle. rewrite decide_False by done.
    apply (at_round_run _ _ _ _ _ _ Hat).
  - intros ->. done.
  - intros w ->. done.
  - intros Hlen.
    destruct (choose_guess_word all_words fg attempt possible_words)
      as (guess & Hguess & Hword); [done..|].
    exists guess. split; [done|]. unfold result, round.
    rewrite !decide_False by lia. rewrite Hguess.
    destruct (get_feedback_interactive guess stdin) as [[fb stdin']|] eqn:Hfb;
      [|done].
    case_decide; [done|].
    apply get_feedback_interactive_valid in Hfb as [Hfb _].
    destruct (filter_words_spec possible_words guess fb) as (pw' & Hpw' & _);
      [|done..|].
    { rewrite Forall_forall in Hwords |- *. intros w Hw. apply Hwords.
      by eapply sublist_subseteq. }
    exists pw'. split; [done|]. by rewrite Hpw'.
  - intros a pw Ha. unfold last_report. by rewrite decide_False.
  - done.
  - intros -> out pw' stdin' Hresult. unfold rest. change (7 - 6) with 1.
    cbn [seq game_loop]. fold result. by rewrite Hresult.
Qed.

(** C10. [filter_words] returns a subsequence of its input list, in the
    input's order; the dictionary is loaded strictly sorted; hence the
    candidate list of every round the loop reaches is a subsequence of the
    dictionary and strictly sorted, and filtering a sorted list leaves a
    sorted list. *)
Theorem candidates_stay_sorted path first_guess stdin0 attempt possible_words
    stdin words guess feedback res :
  filter_words words guess feedback = Some res →
  at_round (get_nouns path) (normalize_word first_guess) stdin0
    attempt possible_words stdin →
  res `sublist_of` words
  ∧ (StronglySorted str_lt words → StronglySorted str_lt res)
  ∧ StronglySorted str_lt (get_nouns path)
  ∧ possible_words `sublist_of` get_nouns path
  ∧ StronglySorted str_lt possible_words
  ∧ take (50 `min` length possible_words) possible_words
      `prefix_of` possible_words.
Proof.
  intros Hres%filter_words_sublist Hat.
  destruct (at_round_inv _ _ _ _ _ _ Hat) as (Hsub & _ & _).
  pose proof (get_nouns_sorted path) as Hsorted.
  split; [done|]. split; [by apply StronglySorted_sublist|].
  split; [done|]. split; [done|].
  split; [by eapply StronglySorted_sublist|]. apply prefix_take.
Qed.

End game_claims.

Lemma eight_words_round_two :
  @at_round basic_builtins (@get_nouns basic_builtins eight_words_file)
    (@normalize_word basic_builtins (utf8 "огонь"))
    [utf8 "10010"; utf8 "22022"; utf8 "22222"] 2 five_candidates
    [utf8 "22022"; utf8 "22222"].
Proof.
  eapply (at_round_next _ _ _ 1); [apply at_round_first; by vm_compute | lia |].
  by vm_compute.
Defined.

Lemma game_loop_rounds_witness :
  Forall is_word (@get_nouns basic_builtins eight_words_file)
  ∧ attempts_made
      (@solve_wordle basic_builtins eight_words_file (utf8 "огонь")
         [utf8 "10010"; utf8 "22022"; utf8 "22222"]).1 ≤ 6
  ∧ ∃ guess,
      @choose_guess (@get_nouns basic_builtins eight_words_file)
        (@normalize_word basic_builtins (utf8 "огонь")) 2 five_candidates
      = Some guess
      ∧ match @get_feedback_interactive basic_builtins guess
                [utf8 "22022"; utf8 "22222"] with
        | None =>
            @round basic_builtins (@get_nouns basic_builtins eight_words_file)
              (@normalize_word basic_builtins (utf8 "огонь")) 2 five_candidates
              [utf8 "22022"; utf8 "22222"]
            = Crash [Attempt 2 guess]
        | Some (fb, stdin') =>
            if decide (fb = all_correct)
            then @round basic_builtins (@get_nouns basic_builtins eight_words_file)
                   (@normalize_word basic_builtins (utf8 "огонь")) 2
                   five_candidates [utf8 "22022"; utf8 "22222"]
                 = Stop [Attempt 2 guess; Feedback guess fb; Solved guess]
            else ∃ pw', filter_words five_candidates guess fb = Some pw'
                   ∧ @round basic_builtins
                       (@get_nouns basic_builtins eight_words_file)
                       (@normalize_word basic_builtins (utf8 "огонь")) 2
                       five_candidates [utf8 "22022"; utf8 "22222"]
                     = Next ([Attempt 2 guess; Feedback guess fb;
                              Remaining (length pw')]
                               ++ @last_report 2 pw') pw' stdin'
        end.
Proof.
  assert (Forall is_word (@get_nouns basic_builtins eight_words_file)) as Hwords
    by (vm_compute; repeat constructor).
  destruct (@game_loop_rounds basic_builtins eight_words_file (utf8 "огонь")
              [utf8 "10010"; utf8 "22022"; utf8 "22222"] 2 five_candidates
              [utf8 "22022"; utf8 "22222"] Hwords eight_words_round_two)
    as (Hmax & _ & _ & _ & _ & Hmany & _).
  split; [done|]. split; [done|]. apply Hmany. simpl. lia.
Defined.

Example game_loop_round_two :
  @round basic_builtins (@get_nouns basic_builtins eight_words_file)
    (@normalize_word basic_builtins (utf8 "огонь")) 2 five_candidates
    [utf8 "22022"; utf8 "22222"]
  = Next [Attempt 2 (utf8 "батон"); Feedback (utf8 "батон") (utf8 "22022");
          Remaining 1] [utf8 "барон"] [utf8 "22222"].
Proof. by vm_compute. Qed.

Lemma candidates_stay_sorted_witness :
  five_candidates `sublist_of` @get_nouns basic_builtins eight_words_file
  ∧ (StronglySorted str_lt (@get_nouns basic_builtins eight_words_file) →
     StronglySorted str_lt five_candidates)
  ∧ StronglySorted str_lt (@get_nouns basic_builtins eight_words_file)
  ∧ five_candidates `sublist_of` @get_nouns basic_builtins eight_words_file
  ∧ StronglySorted str_lt five_candidates
  ∧ take (50 `min` length five_candidates) five_candidates
      `prefix_of` five_candidates.
Proof.
  apply (@candidates_stay_sorted basic_builtins eight_words_file (utf8 "огонь")
           [utf8 "10010"; utf8 "22022"; utf8 "22222"] 2 five_candidates
           [utf8 "22022"; utf8 "22222"]
           (@get_nouns basic_builtins eight_words_file) (utf8 "огонь")
           (utf8 "10010")).
  - by vm_compute.
  - exact eight_words_round_two.
Defined.

Example candidates_of_eight_words :
  @get_nouns basic_builtins eight_words_file
  = utf8 <$> ["банка"; "барон"; "батон"; "бекон"; "бетон"; "бидон"; "вагон";
              "огонь"]%string
  ∧ filter_words (@get_nouns basic_builtins eight_words_file) (utf8 "огонь")
      (utf8 "10010") = Some five_candidates.
Proof. by vm_compute. Qed.

(** C4. The game loop on a dictionary file the loader accepts but whose
    first line, a hyphen, a tabulation and five letters, is stored as a
    six-character entry.  The entry sorts first; the opening word ОПЕРА is
    not in the dictionary, so round 1 guesses the entry; a five-character
    answer is read, and [filter_words] then indexes the answer at position
    5 and raises: the run ends by an uncaught [IndexError], having neither
    filtered nor reached a terminal report. *)
Theorem game_loop_raises_on_loaded_entry :
  @get_nouns basic_builtins unstripped_file
    = [9%N :: utf8 "абвгд"; utf8 "огонь"; utf8 "осень"]
  ∧ @choose_guess (@get_nouns basic_builtins unstripped_file)
      (@normalize_word basic_builtins (utf8 "опера")) 1
      (@get_nouns basic_builtins unstripped_file)
    = Some (9%N :: utf8 "абвгд")
  ∧ filter_words (@get_nouns basic_builtins unstripped_file)
      (9%N :: utf8 "абвгд") (utf8 "00000") = None
  ∧ @round basic_builtins (@get_nouns basic_builtins unstripped_file)
      (@normalize_word basic_builtins (utf8 "опера")) 1
      (@get_nouns basic_builtins unstripped_file) [utf8 "00000"]
    = Crash [Attempt 1 (9%N :: utf8 "абвгд");
             Feedback (9%N :: utf8 "абвгд") (utf8 "00000")]
  ∧ @solve_wordle basic_builtins unstripped_file (utf8 "опера") [utf8 "00000"]
    = ([Attempt 1 (9%N :: utf8 "абвгд");
        Feedback (9%N :: utf8 "абвгд") (utf8 "00000")], Raised).
Proof. by vm_compute. Qed.

Example solve_wordle_scenario :
  @solve_wordle basic_builtins scenario_file (utf8 "огонь")
    [utf8 "20000"; utf8 "22222"]
  = ([Attempt 1 (utf8 "огонь"); Feedback (utf8 "огонь") (utf8 "20000");
      Remaining 1; Solved (utf8 "опера")], Returned).
Proof. by vm_compute. Qed.

(** * Further properties of the code *)

(** ** The simulator counts letters as the game does *)

Lemma misplaced_cons L g guess s secret :
  misplaced L (g :: guess) (s :: secret)
  = (if decide (g = L ∧ g ≠ s) then 1 else 0) + misplaced L guess secret.
Proof. unfold misplaced. simpl. rewrite filter_cons. simpl. by case_decide. Qed.

Lemma marked_nil_r m L guess : marked m L guess [] = 0.
Proof. unfold marked. by rewrite zip_with_nil_r. Qed.

Lemma marked_correct_exact L guess : ∀ secret pool,
  marked CORRECT_POSITION L guess (leftover_pass guess secret pool)
  = exact_matches L guess secret.
Proof.
  induction guess as [|g guess IH]; intros [|s secret] pool;
    try (by rewrite ?marked_nil_r; unfold exact_matches; rewrite ?zip_with_nil_r).
  cbn [leftover_pass]. rewrite exact_matches_cons.
  repeat case_decide; rewrite marked_cons, IH; repeat case_decide;
    subst; try done; intuition congruence.
Qed.

Lemma occurrences_not_elem L pool : L ∉ pool → occurrences L pool = 0.
Proof.
  induction pool as [|x pool IH]; [done|]. intros Hnin.
  apply not_elem_of_cons in Hnin as [Hne Hnin].
  rewrite occurrences_cons, decide_False by done. by apply IH.
Qed.

Lemma marked_present_min L guess : ∀ secret pool,
  marked PRESENT_ELSEWHERE L guess (leftover_pass guess secret pool)
  = misplaced L guess secret `min` occurrences L pool.
Proof.
  induction guess as [|g guess IH]; intros [|s secret] pool;
    try (by rewrite ?marked_nil_r; unfold misplaced; rewrite ?zip_with_nil_r).
  cbn [leftover_pass]. rewrite misplaced_cons.
  destruct (decide (g = s)) as [->|Hne]; [|destruct (decide (g ∈ pool)) as [Hin|Hnin]];
    rewrite marked_cons, IH.
  - rewrite decide_False by (by intros [_ [=]]).
    rewrite decide_False by tauto. done.
  - rewrite (occurrences_remove_first L g pool Hin).
    destruct (decide (g = L)) as [->|HL].
    + rewrite !decide_True by done. lia.
    + rewrite !decide_False by tauto. done.
  - rewrite decide_False by (by intros [_ [=]]).
    destruct (decide (g = L)) as [->|HL].
    + rewrite decide_True by done.
      rewrite (occurrences_not_elem L pool Hnin). lia.
    + rewrite decide_False by tauto. done.
Qed.

Lemma occurrences_exact_misplaced L guess : ∀ secret,
  length guess = length secret →
  occurrences L guess = exact_matches L guess secret + misplaced L guess secret.
Proof.
  induction guess as [|g guess IH]; intros [|s secret] Hlen; try done.
  simpl in Hlen. injection Hlen as Hlen.
  rewrite occurrences_cons, exact_matches_cons, misplaced_cons, (IH secret Hlen).
  repeat case_decide; subst; try lia; intuition congruence.
Qed.

Lemma letter_count_min L guess secret :
  length guess = length secret →
  marked CORRECT_POSITION L guess (two_pass guess secret)
  + marked PRESENT_ELSEWHERE L guess (two_pass guess secret)
  = occurrences L guess `min` occurrences L secret.
Proof.
  intros Hlen. unfold two_pass.
  rewrite marked_correct_exact, marked_present_min.
  rewrite (occurrences_exact_misplaced L guess secret Hlen).
  rewrite <-(occurrences_unconsumed L guess secret Hlen). lia.
Qed.

(** X2. For every letter, the positions of the guess that carry it and
    hold 2 or 1 in the tuple the simulator returns number the smaller of
    its occurrences in the guess and in the secret. *)
Theorem simulate_letter_count guess secret L :
  is_word guess → is_word secret →
  ∃ p, simulate guess secret = Some p
    ∧ coded 2 L guess (pattern_list p) + coded 1 L guess (pattern_list p)
      = occurrences L guess `min` occurrences L secret.
Proof.
  intros Hg Hs. destruct (simulate_total guess secret Hg Hs) as [p Hp].
  exists p. split; [done|]. rewrite simulate_refines in Hp by done.
  rewrite (pattern_list_marks _ _ (length_two_pass guess secret Hg Hs) Hp).
  rewrite (coded_marked CORRECT_POSITION), (coded_marked PRESENT_ELSEWHERE).
  apply letter_count_min. unfold is_word in *. congruence.
Qed.

Lemma simulate_letter_count_witness :
  ∃ p, simulate (utf8 "аабба") (utf8 "бааав") = Some p
    ∧ coded 2 1072%N (utf8 "аабба") (pattern_list p)
      + coded 1 1072%N (utf8 "аабба") (pattern_list p)
      = occurrences 1072%N (utf8 "аабба") `min` occurrences 1072%N (utf8 "бааав").
Proof. apply simulate_letter_count; reflexivity. Defined.

Example simulate_letter_count_aabba :
  simulate (utf8 "аабба") (utf8 "бааав") = Some (1, 2, 1, 0, 1)%Z
  ∧ coded 2 1072%N (utf8 "аабба") [1; 2; 1; 0; 1]%Z = 1
  ∧ coded 1 1072%N (utf8 "аабба") [1; 2; 1; 0; 1]%Z = 2
  ∧ occurrences 1072%N (utf8 "аабба") = 3
  ∧ occurrences 1072%N (utf8 "бааав") = 3.
Proof. by vm_compute. Qed.

(** ** Only the secret is answered all-correct *)

Lemma mark_code_inj m1 m2 : mark_code m1 = mark_code m2 → m1 = m2.
Proof. by destruct m1, m2. Qed.

Lemma all_correct_equal guess secret :
  is_word guess → is_word secret →
  simulate guess secret = Some (2, 2, 2, 2, 2)%Z → guess = secret.
Proof.
  intros Hg Hs. rewrite simulate_refines by done.
  destruct (pattern_marks_is_Some (two_pass guess secret))
    as (m0 & m1 & m2 & m3 & m4 & Hms & ->); [by apply length_two_pass|].
  intros [= H0 H1 H2 H3 H4].
  apply (mark_code_inj _ CORRECT_POSITION) in H0, H1, H2, H3, H4. subst.
  assert (length guess = length secret) as Hlen by (unfold is_word in *; congruence).
  apply list_eq. intros i.
  destruct (decide (i < 5)) as [Hi|Hi].
  - apply (leftover_pass_correct guess secret (unconsumed guess secret) i Hlen).
    fold (two_pass guess secret). rewrite Hms.
    by do 5 (destruct i as [|i]; [done|]); lia.
  - unfold is_word in *. rewrite !lookup_ge_None_2; [done|lia..].
Qed.

(** X3. A guess is answered with the all-CORRECT_POSITION pattern only
    when it is the secret. *)
Theorem simulate_all_correct_only_secret guess secret :
  is_word guess → is_word secret →
  simulate guess secret = Some (2, 2, 2, 2, 2)%Z ↔ guess = secret.
Proof.
  intros Hg Hs. split; [by apply all_correct_equal|].
  intros ->. rewrite simulate_refines by done. unfold two_pass.
  rewrite leftover_pass_self. unfold is_word in Hs. by rewrite Hs.
Qed.

Lemma simulate_all_correct_only_secret_witness :
  simulate (utf8 "осень") (utf8 "осень") = Some (2, 2, 2, 2, 2)%Z
  ↔ utf8 "осень" = utf8 "осень".
Proof. apply simulate_all_correct_only_secret; reflexivity. Defined.

(** ** The filter keeps the secret *)

Lemma mark_char_inj m1 m2 : mark_char m1 = mark_char m2 → m1 = m2.
Proof. by destruct m1, m2. Qed.

Lemma feedback_str_lookup ms i m :
  feedback_str ms !! i = Some (mark_char m) ↔ ms !! i = Some m.
Proof.
  unfold feedback_str. rewrite list_lookup_fmap.
  destruct (ms !! i) as [m'|]; simpl; [|done]. split.
  - intros [= ->%mark_char_inj]. done.
  - by intros [= ->].
Qed.

Lemma requiredCount_marked L guess : ∀ ms,
  requiredCount guess (feedback_str ms) L
  = marked CORRECT_POSITION L guess ms + marked PRESENT_ELSEWHERE L guess ms.
Proof.
  unfold requiredCount, feedback_str.
  induction guess as [|g guess IH]; intros [|m ms];
    try (by rewrite ?marked_nil_r; simpl; rewrite ?zip_with_nil_r).
  rewrite !marked_cons. specialize (IH ms). rewrite fmap_cons.
  change (zip (g :: guess) (mark_char m :: (mark_char <$> ms)))
    with ((g, mark_char m) :: zip guess (mark_char <$> ms)).
  rewrite filter_cons. cbn [fst snd].
  destruct m; repeat case_decide; cbn [length]; try lia;
    exfalso; intuition (try discriminate; try congruence).
Qed.

Lemma leftover_pass_absent L guess : ∀ secret pool i,
  leftover_pass guess secret pool !! i = Some ABSENT → guess !! i = Some L →
  occurrences L pool
  ≤ marked PRESENT_ELSEWHERE L guess (leftover_pass guess secret pool).
Proof.
  induction guess as [|g guess IH]; intros [|s secret] pool i; try done.
  cbn [leftover_pass].
  destruct (decide (g = s)) as [->|Hne]; [|destruct (decide (g ∈ pool)) as [Hin|Hnin]];
    rewrite marked_cons; (destruct i as [|i]; simpl; [|intros Hm Hx]).
  - done.
  - rewrite decide_False by (by intros [_ [=]]). by eapply IH.
  - done.
  - rewrite (occurrences_remove_first L g pool Hin).
    pose proof (IH _ _ _ Hm Hx). repeat case_decide; try lia; intuition congruence.
  - intros _ [= ->]. rewrite (occurrences_not_elem L pool Hnin). lia.
  - rewrite decide_False by (by intros [_ [=]]). by eapply IH.
Qed.

(** The secret agrees with the feedback simulated for any guess. *)
Lemma secret_consistent guess secret :
  is_word guess → is_word secret → secret ≠ guess →
  consistent guess (feedback_str (two_pass guess secret)) secret.
Proof.
  intros Hg Hs Hne.
  assert (length guess = length secret) as Hlen by (unfold is_word in *; congruence).
  split; [done|]. split; [|split].
  - intros i g Hfb%(feedback_str_lookup _ _ CORRECT_POSITION) Hgi.
    apply leftover_pass_correct in Hfb as [_ Heq]; [|done]. congruence.
  - intros i g Hfb%(feedback_str_lookup _ _ PRESENT_ELSEWHERE) Hgi.
    destruct (leftover_pass_present _ _ _ _ _ Hfb Hgi) as [Hin Hsi].
    split; [done|]. by eapply elem_of_unconsumed.
  - intros i g Hfb%(feedback_str_lookup _ _ ABSENT) Hgi.
    rewrite requiredCount_marked. unfold two_pass in *.
    rewrite marked_correct_exact.
    pose proof (leftover_pass_absent g _ _ _ _ Hfb Hgi).
    pose proof (occurrences_unconsumed g guess secret Hlen). lia.
Qed.

Lemma secret_survives words guess secret p :
  Forall is_word words → is_word guess → secret ∈ words → secret ≠ guess →
  simulate guess secret = Some p →
  ∃ res, filter_words words guess (pattern_str p) = Some res ∧ secret ∈ res.
Proof.
  intros Hwords Hg Hin Hne Hp.
  assert (is_word secret) as Hs by (rewrite Forall_forall in Hwords; by apply Hwords).
  rewrite simulate_refines in Hp by done.
  rewrite (pattern_str_marks (two_pass guess secret) p) by
    (done || by apply length_two_pass).
  destruct (filter_words_spec words guess (feedback_str (two_pass guess secret)))
    as (res & Hres & _ & Hmem); [done | done | |].
  { unfold feedback_str. rewrite length_fmap. by apply length_two_pass. }
  exists res. split; [done|]. apply Hmem. split; [done|].
  by apply secret_consistent.
Qed.

(** X1. The filter is sound for truthful feedback: when a guess other
    than the secret is answered with the pattern the simulator computes
    against the secret, a secret of the candidate list stays in it. *)
Theorem filter_words_keeps_secret words guess secret p :
  Forall is_word words → is_word guess → secret ∈ words → secret ≠ guess →
  simulate guess secret = Some p →
  ∃ res, filter_words words guess (pattern_str p) = Some res ∧ secret ∈ res.
Proof. apply secret_survives. Qed.

Lemma filter_words_keeps_secret_witness :
  ∃ res, filter_words scenario_words (utf8 "опера") (pattern_str (2, 0, 2, 0, 0)%Z)
         = Some res
    ∧ utf8 "осень" ∈ res.
Proof.
  apply (filter_words_keeps_secret scenario_words (utf8 "опера") (utf8 "осень"));
    [repeat constructor | reflexivity | | discriminate | reflexivity].
  apply (bool_decide_unpack _). vm_compute. exact I.
Defined.

(** X7. The filter is not exact: it can keep a word that would not have
    produced the feedback.  For the guess ААБВГ and the secret ДДАДД the
    first А is PRESENT_ELSEWHERE and the second ABSENT; the candidate
    ДАДДД stays although ААБВГ against it is answered differently. *)
Theorem filter_words_keeps_impossible :
  ∃ words guess secret p candidate res,
    Forall is_word words ∧ is_word guess ∧ is_word secret
    ∧ simulate guess secret = Some p
    ∧ filter_words words guess (pattern_str p) = Some res
    ∧ candidate ∈ res
    ∧ simulate guess candidate ≠ Some p.
Proof.
  exists [utf8 "ддадд"; utf8 "даддд"], (utf8 "аабвг"), (utf8 "ддадд"),
    (1, 0, 0, 0, 0)%Z, (utf8 "даддд"), [utf8 "ддадд"; utf8 "даддд"].
  split; [repeat constructor|]. split; [done|]. split; [done|].
  split; [by vm_compute|]. split; [by vm_compute|].
  split; [apply (bool_decide_unpack _); vm_compute; exact I|].
  by vm_compute.
Qed.

(** ** Composition and edge cases of the filter *)

(** X4. Filtering is idempotent: filtering the result again with the same
    guess and feedback changes nothing. *)
Theorem filter_words_idempotent words guess feedback :
  Forall is_word words → is_word guess → length feedback = 5 →
  ∃ res, filter_words words guess feedback = Some res
    ∧ filter_words res guess feedback = Some res.
Proof.
  intros Hwords Hguess Hfb.
  destruct (filter_words_total words guess feedback) as (rc & Hrc & _ & Hres);
    [done..|].
  eexists. split; [exact Hres|].
  destruct (filter_words_total
              (filter (λ w, keep_word rc guess feedback w = Some true) words)
              guess feedback)
    as (rc' & Hrc' & _ & ->); [by apply Forall_is_word_filter|done..|].
  assert (rc' = rc) as -> by congruence. f_equal.
  rewrite list_filter_filter. apply list_filter_iff. tauto.
Qed.

Lemma filter_words_idempotent_witness :
  ∃ res, filter_words scenario_words (utf8 "опера") (utf8 "20000") = Some res
    ∧ filter_words res (utf8 "опера") (utf8 "20000") = Some res.
Proof.
  apply filter_words_idempotent; [repeat constructor | reflexivity | reflexivity].
Defined.

(** X5. The all-CORRECT_POSITION feedback leaves no candidate: the only
    word it fits is the guess, which the filter always drops. *)
Theorem filter_words_all_correct words guess :
  Forall is_word words → is_word guess →
  filter_words words guess all_correct = Some [].
Proof.
  intros Hwords Hguess.
  destruct (filter_words_spec words guess all_correct) as (res & -> & _ & Hmem);
    [done..|].
  f_equal. destruct res as [|c res]; [done|]. exfalso.
  destruct (proj1 (Hmem c)) as (Hc & Hne & Hgreen & _); [left|].
  apply Hne. apply list_eq. intros i.
  rewrite Forall_forall in Hwords. specialize (Hwords c Hc).
  unfold is_word in *. destruct (decide (i < 5)) as [Hi|Hi].
  - destruct (lookup_lt_is_Some_2 guess i) as [g Hg]; [lia|].
    rewrite Hg. apply Hgreen; [|done].
    by do 5 (destruct i as [|i]; [done|]); lia.
  - rewrite !lookup_ge_None_2; [done|lia..].
Qed.

Lemma filter_words_all_correct_witness :
  filter_words scenario_words (utf8 "опера") all_correct = Some [].
Proof.
  apply filter_words_all_correct; [repeat constructor | reflexivity].
Defined.

Lemma required_counts_short guess : ∀ feedback k rc,
  k ≤ length feedback → length feedback < k + length guess →
  for_each (count_required feedback) (imap (λ i, pair (k + i)) guess) rc = None.
Proof.
  induction guess as [|g guess IH]; intros feedback k rc Hk Hlen; simpl in *; [lia|].
  rewrite Nat.add_0_r.
  destruct (feedback !! k) as [f|] eqn:Hf.
  - rewrite (count_required_eq _ _ _ _ _ Hf). cbn [mbind option_bind].
    apply lookup_lt_Some in Hf.
    erewrite imap_ext; [apply (IH feedback (S k)); lia|].
    intros i x _. simpl. f_equal. lia.
  - unfold count_required. simpl. by rewrite Hf.
Qed.

(** X6. A feedback string shorter than the guess makes [filter_words]
    raise, whatever the candidates, even when there are none: the required
    counts are computed over every letter of the guess before any candidate
    is looked at. *)
Theorem filter_words_short_feedback words guess feedback :
  length feedback < length guess →
  filter_words words guess feedback = None.
Proof.
  intros Hlen. unfold filter_words, required_counts.
  by rewrite (required_counts_short guess feedback 0 ∅) by lia.
Qed.

Lemma filter_words_short_feedback_witness :
  filter_words [] (utf8 "опера") (utf8 "2020") = None.
Proof. apply filter_words_short_feedback. simpl. lia. Defined.

(** ** Bounds of the score and of the selector *)

Lemma bucket_le w pool p : bucket w pool p ≤ length pool.
Proof. unfold bucket. apply length_filter. Qed.

Lemma worst_case_bounds w pool :
  is_word w → Forall is_word pool →
  worst_case w pool ≤ length pool ∧ (pool ≠ [] → 1 ≤ worst_case w pool).
Proof.
  intros Hw Hpool. unfold worst_case. split.
  - destruct (remove_dups (omap (simulate w) pool)) as [|p ps] eqn:Hps; [simpl; lia|].
    rewrite <-Hps.
    pose proof (max_list_elem_of (bucket w pool <$> remove_dups (omap (simulate w) pool)))
      as Hmax.
    destruct (proj1 (list_elem_of_fmap _ _ _) (Hmax ltac:(by rewrite Hps)))
      as (q & -> & _).
    apply bucket_le.
  - destruct pool as [|t pool]; [done|]. intros _.
    apply Forall_cons in Hpool as [Ht Hpool].
    destruct (simulate_total w t Hw Ht) as [p Hp].
    assert (bucket w (t :: pool) p
            ∈ bucket w (t :: pool) <$> remove_dups (omap (simulate w) (t :: pool)))
      as Hin%max_list_elem_of_le.
    { apply list_elem_of_fmap. exists p. split; [done|].
      apply elem_of_remove_dups, list_elem_of_omap. exists t. split; [left|done]. }
    assert (0 < bucket w (t :: pool) p); [|lia].
    apply bucket_pos. exists t. split; [left|done].
Qed.

(** X8. The score of a word against a list of words is 0 for the empty
    list and otherwise at least 1 and at most the length of the list. *)
Theorem evaluate_word_bounds w pool :
  is_word w → Forall is_word pool →
  ∃ n, evaluate_word w pool = Some n
    ∧ n ≤ length pool ∧ (pool ≠ [] → 1 ≤ n).
Proof.
  intros Hw Hpool. exists (worst_case w pool).
  split; [by apply evaluate_word_worst_case|]. by apply worst_case_bounds.
Qed.

Lemma evaluate_word_bounds_witness :
  ∃ n, evaluate_word (utf8 "облик") scenario_words = Some n
    ∧ n ≤ length scenario_words ∧ (scenario_words ≠ [] → 1 ≤ n).
Proof. apply evaluate_word_bounds; [reflexivity | repeat constructor]. Defined.

Lemma scan_loop_elem pw cs : ∀ b sc b' sc',
  for_each (scan pw) cs (b, sc) = Some (b', sc') → b' = b ∨ b' ∈ cs.
Proof.
  induction cs as [|c cs IH]; intros b sc b' sc'; simpl.
  - intros [= -> _]. by left.
  - destruct (scan pw c (b, sc)) as [[b1 sc1]|] eqn:Hscan; [|done]. simpl.
    assert (b1 = c ∨ b1 = b) as Hb1.
    { unfold scan in Hscan. destruct (evaluate_word c pw) as [s|]; [|done].
      simpl in Hscan. destruct (score_lt s sc); injection Hscan as <- _; auto. }
    intros [->|Hin]%IH.
    + destruct Hb1 as [->| ->]; [right; left|by left].
    + right. by right.
Qed.

Lemma get_best_guess_elem possible_words all_words guess :
  get_best_guess possible_words all_words = Some guess → guess ∈ possible_words.
Proof.
  unfold get_best_guess. case_decide.
  - apply list_elem_of_lookup_2.
  - destruct (take _ possible_words !! 0) as [b0|] eqn:Hb0; [|done]. simpl.
    destruct (for_each _ _ _) as [[b' sc']|] eqn:Hscan; [|done].
    simpl. intros [= <-].
    assert (∀ x, x ∈ take (50 `min` length possible_words) possible_words →
                 x ∈ possible_words) as Htake.
    { intros x. apply sublist_subseteq, sublist_take. }
    apply scan_loop_elem in Hscan as [->|Hin]; [|by apply Htake].
    by apply Htake, list_elem_of_lookup_2 with 0.
Qed.

(** X9. Whenever the selector returns, the guess is one of the candidates;
    in particular it raises on an empty candidate list. *)
Theorem get_best_guess_candidate possible_words all_words guess :
  get_best_guess possible_words all_words = Some guess →
  guess ∈ possible_words ∧ possible_words ≠ [].
Proof.
  intros Hin%get_best_guess_elem. split; [done|]. intros ->.
  by apply elem_of_nil in Hin.
Qed.

Lemma get_best_guess_candidate_witness :
  utf8 "огонь" ∈ scenario_words ∧ scenario_words ≠ [].
Proof.
  apply (get_best_guess_candidate scenario_words [] (utf8 "огонь")).
  by vm_compute.
Defined.

(** ** The prompt *)

(** X10. The prompt returns the first line that, stripped, is five
    characters among 0, 1 and 2, together with the lines after it; the lines
    before it are all rejected; it raises only when no line is accepted. *)
Theorem get_feedback_interactive_first_valid `{Builtins} guess stdin :
  match get_feedback_interactive guess stdin with
  | Some (fb, rest) =>
      ∃ skipped line,
        stdin = skipped ++ line :: rest ∧ fb = strip line ∧ valid_feedback fb
        ∧ Forall (λ l, ¬ valid_feedback (strip l)) skipped
  | None => Forall (λ l, ¬ valid_feedback (strip l)) stdin
  end.
Proof.
  induction stdin as [|line stdin IH]; simpl; [constructor|].
  case_bool_decide as Hbad.
  - assert (¬ valid_feedback (strip line)) as Hline.
    { intros [Hlen Hall]. destruct Hbad as [?|Hex]; [done|].
      apply Exists_exists in Hex as (ch & Hch & Hnin).
      rewrite Forall_forall in Hall. by apply Hnin, Hall. }
    destruct (get_feedback_interactive guess stdin) as [[fb rest]|].
    + destruct IH as (skipped & l & -> & -> & Hvalid & Hskipped).
      exists (line :: skipped), l. split; [done|]. split; [done|].
      split; [done|]. by constructor.
    + by constructor.
  - exists [], line. split; [done|]. split; [done|]. split; [|constructor].
    split.
    + destruct (decide (length (strip line) = 5)); [done|].
      exfalso. apply Hbad. by left.
    + apply Forall_forall. intros ch Hch.
      destruct (decide (ch ∈ [c0; c1; c2])) as [|Hnin]; [done|].
      exfalso. apply Hbad. right. apply Exists_exists. by exists ch.
Qed.

(** ** The dictionary commands *)

Lemma elem_of_replace x old new (s : str) :
  x ∈ replace old new s ↔ (x ∈ s ∧ x ≠ old) ∨ (x ∈ new ∧ old ∈ s).
Proof.
  unfold replace. rewrite list_elem_of_bind. split.
  - intros (ch & Hx & Hch). case_decide; subst.
    + right. done.
    + apply list_elem_of_singleton in Hx as ->. left. done.
  - intros [[Hx Hne]|[Hx Hold]].
    + exists x. split; [|done]. rewrite decide_False by done. by left.
    + exists old. split; [|done]. by rewrite decide_True.
Qed.

Lemma StronglySorted_str_lt_NoDup (l : list str) :
  StronglySorted str_lt l → NoDup l.
Proof.
  induction 1 as [|x l Hl IH Hx]; constructor; [|done].
  intros Hin. rewrite Forall_forall in Hx. by destruct (Hx x Hin) as [_ ?].
Qed.

Lemma list_remove_word_spec w (l : list str) :
  NoDup l → w ∈ l →
  ∃ l', list_remove_word w l = Some l' ∧ l' `sublist_of` l
    ∧ (∀ x, x ∈ l' ↔ x ∈ l ∧ x ≠ w) ∧ S (length l') = length l.
Proof.
  induction l as [|y l IH]; intros Hnd Hin; [by apply elem_of_nil in Hin|].
  apply NoDup_cons in Hnd as [Hy Hnd]. simpl.
  destruct (decide (y = w)) as [->|Hne].
  - exists l. split; [done|]. split; [by apply sublist_cons|]. split; [|done].
    intros x. rewrite elem_of_cons. split; [|tauto].
    intros Hx. split; [by right|]. by intros ->.
  - apply elem_of_cons in Hin as [?|Hin]; [congruence|].
    destruct (IH Hnd Hin) as (l' & -> & Hsub & Hmem & Hlen).
    exists (y :: l'). split; [done|]. split; [by apply sublist_skip|].
    split; [|simpl; lia].
    intros x. rewrite !elem_of_cons, Hmem. split; [|tauto].
    intros [->|[? ?]]; [|tauto]. split; [by left|done].
Qed.

Lemma str_lt_unique (l1 l2 : list str) :
  StronglySorted str_lt l1 → StronglySorted str_lt l2 →
  (∀ x, x ∈ l1 ↔ x ∈ l2) → l1 = l2.
Proof.
  intros H1 H2 Hmem. apply (StronglySorted_unique_strong str_lt); [|done..|].
  - intros x y _ _ [Hxy _] [Hyx _]. by apply str_le_antisym.
  - apply NoDup_Permutation; [by apply StronglySorted_str_lt_NoDup..|done].
Qed.

Section command_proofs.
Context `{Builtins}.

(** X12. A normalized word holds no space, no hyphen and no letter ё,
    whatever [strip] and [lower] do. *)
Theorem normalize_word_clean word :
  Forall (λ ch, ch ≠ 32%N ∧ ch ≠ 45%N ∧ ch ≠ 1105%N) (normalize_word word).
Proof.
  apply Forall_forall. intros ch Hch. unfold normalize_word in Hch.
  apply elem_of_replace in Hch as [[Hch H32]|[Hch _]];
    [|by apply elem_of_nil in Hch].
  apply elem_of_replace in Hch as [[Hch H45]|[Hch _]];
    [|by apply elem_of_nil in Hch].
  apply elem_of_replace in Hch as [[Hch H1105]|[Hch _]]; [done|].
  apply list_elem_of_singleton in Hch as ->. done.
Qed.

(** X11. The loaded dictionary holds no word twice, and holds exactly the
    normalized lines of the file that pass the validity check; a missing or
    unreadable file loads as the empty dictionary. *)
Theorem get_nouns_spec path :
  NoDup (get_nouns path)
  ∧ (∀ w, w ∈ get_nouns path
       ↔ ∃ content line,
           path = Text content ∧ line ∈ splitlines content
           ∧ w = normalize_word line ∧ is_valid_five_letter_word w = true)
  ∧ get_nouns Missing = [] ∧ get_nouns Unreadable = [].
Proof.
  split; [apply StronglySorted_str_lt_NoDup, get_nouns_sorted|].
  split; [|done]. intros w. unfold get_nouns.
  destruct path as [| |content]; simpl.
  - split; [by intros ?%elem_of_nil | by intros (? & ? & [=] & _)].
  - split; [by intros ?%elem_of_nil | by intros (? & ? & [=] & _)].
  - rewrite elem_of_sorted_elements, collect_words. split.
    + intros [?%not_elem_of_empty|(line & ? & ? & ?)]; [done|].
      by exists content, line.
    + intros (? & line & [= <-] & ? & ? & ?). right. by exists line.
Qed.

Lemma elem_of_sorted_insert (ws : list str) w x :
  x ∈ merge_sort str_le (elements (list_to_set (ws ++ [w]) : gset str))
  ↔ x = w ∨ x ∈ ws.
Proof.
  rewrite elem_of_sorted_elements, elem_of_list_to_set, elem_of_app,
    list_elem_of_singleton. tauto.
Qed.

(** X13. Adding a valid word that is not yet in the dictionary rewrites
    the file as the sorted list of the old words and the new one, one more
    than before; when the rewrite fails the call returns [False] and the
    file is the one it was. *)
Theorem add_word_new_word word path :
  is_valid_five_letter_word (normalize_word word) = true →
  normalize_word word ∉ get_nouns path →
  ∃ l, add_word_to_dict word true path
       = (true, write_words_atomic l, [MsgAdded (normalize_word word) (length l)])
    ∧ StronglySorted str_lt l
    ∧ (∀ x, x ∈ l ↔ x = normalize_word word ∨ x ∈ get_nouns path)
    ∧ length l = S (length (get_nouns path))
    ∧ add_word_to_dict word false path = (false, path, [MsgWriteError]).
Proof.
  intros Hvalid Hnew.
  exists (merge_sort str_le
            (elements (list_to_set (get_nouns path ++ [normalize_word word])
                         : gset str))).
  unfold add_word_to_dict. rewrite Hvalid. simpl. rewrite decide_False by done.
  split; [done|]. split; [apply sorted_elements|].
  split; [apply elem_of_sorted_insert|]. split; [|by rewrite decide_False].
  rewrite merge_sort_Permutation.
  assert (elements (list_to_set (get_nouns path ++ [normalize_word word]) : gset str)
          ≡ₚ normalize_word word :: get_nouns path) as ->; [|done].
  apply NoDup_Permutation; [apply NoDup_elements| |].
  - constructor; [done|]. apply StronglySorted_str_lt_NoDup, get_nouns_sorted.
  - intros x. rewrite elem_of_elements, elem_of_list_to_set, elem_of_app,
      list_elem_of_singleton, elem_of_cons. tauto.
Qed.

(** X14. Removing a word: when its normalized form is not in the
    dictionary the call fails, exits with code 1 and leaves the file alone;
    otherwise the file is rewritten with the other words, in their order,
    one fewer than before. *)
Theorem remove_word_outcome word path :
  let w := normalize_word word in
  ((w ∉ get_nouns path)
   ∧ ∀ writable,
       remove_word_from_dict word writable path = (false, path, [MsgNotFound w])
       ∧ main_remove_word word writable path = (1%Z, path))
  ∨ (w ∈ get_nouns path
     ∧ ∃ l, remove_word_from_dict word true path
            = (true, write_words_atomic l, [MsgRemoved w (length l)])
       ∧ main_remove_word word true path = (0%Z, write_words_atomic l)
       ∧ l `sublist_of` get_nouns path
       ∧ (∀ x, x ∈ l ↔ x ∈ get_nouns path ∧ x ≠ w)
       ∧ S (length l) = length (get_nouns path)
       ∧ remove_word_from_dict word false path = (false, path, [MsgUpdateError])).
Proof.
  intros w. destruct (decide (w ∈ get_nouns path)) as [Hin|Hnin].
  - right. split; [done|].
    destruct (list_remove_word_spec w (get_nouns path))
      as (l & Hl & Hsub & Hmem & Hlen);
      [apply StronglySorted_str_lt_NoDup, get_nouns_sorted | done |].
    assert (∀ writable, remove_word_from_dict word writable path
              = if writable : bool
                then (true, write_words_atomic l, [MsgRemoved w (length l)])
                else (false, path, [MsgUpdateError])) as Heq.
    { intros writable. unfold remove_word_from_dict. fold w.
      rewrite decide_False by (by intros ?). by rewrite Hl. }
    exists l. unfold main_remove_word. rewrite !Heq. done.
  - left. split; [done|]. intros writable.
    unfold main_remove_word, remove_word_from_dict. fold w.
    by rewrite decide_True.
Qed.

(** X15. Adding a new word and removing it again: when the list the
    addition writes reads back as written, both calls succeed and the
    removal writes the original dictionary, word for word. *)
Theorem add_then_remove word path :
  is_valid_five_letter_word (normalize_word word) = true →
  normalize_word word ∉ get_nouns path →
  reads_back (sorted_with (normalize_word word) (get_nouns path)) →
  ∃ path' msgs,
    add_word_to_dict word true path = (true, path', msgs)
    ∧ remove_word_from_dict word true path'
      = (true, write_words_atomic (get_nouns path),
         [MsgRemoved (normalize_word word) (length (get_nouns path))]).
Proof.
  intros Hvalid Hnew Hback.
  set (l := sorted_with (normalize_word word) (get_nouns path)) in *.
  exists (write_words_atomic l), [MsgAdded (normalize_word word) (length l)].
  split.
  { unfold add_word_to_dict. rewrite Hvalid. simpl. by rewrite decide_False. }
  unfold remove_word_from_dict. unfold reads_back in Hback. rewrite Hback.
  assert (normalize_word word ∈ l) as Hin by (apply elem_of_sorted_insert; by left).
  rewrite decide_False by (by intros ?).
  destruct (list_remove_word_spec (normalize_word word) l)
    as (l' & -> & Hsub & Hmem & _);
    [apply StronglySorted_str_lt_NoDup, sorted_elements | done |].
  assert (l' = get_nouns path) as ->; [|done].
  apply str_lt_unique.
  - eapply StronglySorted_sublist; [done|]. apply sorted_elements.
  - apply get_nouns_sorted.
  - intros x. rewrite Hmem. unfold l, sorted_with.
    rewrite elem_of_sorted_insert. split.
    + intros [[->|?] ?]; done.
    + intros Hx. split; [by right|]. by intros ->.
Qed.

(** X16. The limit of the listing: a negative limit is ignored, and the
    limit 0 prints the no-words message whatever the dictionary holds. *)
Theorem list_words_edge_limits path n :
  (n ≤ 0)%Z →
  list_words path (Some n)
  = if decide (n = 0%Z) then [LineNoWords] else list_words path None.
Proof.
  intros Hn. destruct (decide (n = 0%Z)) as [->|H0]; [done|].
  unfold list_words. assert ((0 <=? n)%Z = false) as -> by lia. done.
Qed.

(** X17. A positive limit prints the first words of the dictionary, as
    many as the limit allows, in order. *)
Theorem list_words_prefix path n :
  (0 < n)%Z → get_nouns path ≠ [] →
  list_words path (Some n) = LineWord <$> take (Z.to_nat n) (get_nouns path)
  ∧ length (list_words path (Some n)) = Z.to_nat n `min` length (get_nouns path)
  ∧ list_words path None = LineWord <$> get_nouns path.
Proof.
  intros Hn Hne. unfold list_words.
  assert ((0 <=? n)%Z = true) as -> by lia.
  assert (take (Z.to_nat n) (get_nouns path) ≠ []) as Htake.
  { destruct (get_nouns path); [done|].
    destruct (Z.to_nat n) eqn:Hz; [lia|done]. }
  rewrite !decide_False by done.
  by rewrite length_fmap, length_take.
Qed.

End command_proofs.

Lemma add_word_new_word_witness :
  ∃ l, @add_word_to_dict basic_builtins (utf8 "облик") true scenario_file
       = (true, @write_words_atomic l,
          [MsgAdded (@normalize_word basic_builtins (utf8 "облик")) (length l)])
    ∧ StronglySorted str_lt l
    ∧ (∀ x, x ∈ l ↔ x = @normalize_word basic_builtins (utf8 "облик")
                     ∨ x ∈ @get_nouns basic_builtins scenario_file)
    ∧ length l = S (length (@get_nouns basic_builtins scenario_file))
    ∧ @add_word_to_dict basic_builtins (utf8 "облик") false scenario_file
      = (false, scenario_file, [MsgWriteError]).
Proof.
  apply (@add_word_new_word basic_builtins); [by vm_compute|].
  apply (bool_decide_unpack _). vm_compute. exact I.
Defined.

Lemma add_then_remove_witness :
  ∃ path' msgs,
    @add_word_to_dict basic_builtins (utf8 "облик") true scenario_file
      = (true, path', msgs)
    ∧ @remove_word_from_dict basic_builtins (utf8 "облик") true path'
      = (true, write_words_atomic (@get_nouns basic_builtins scenario_file),
         [MsgRemoved (@normalize_word basic_builtins (utf8 "облик"))
            (length (@get_nouns basic_builtins scenario_file))]).
Proof.
  apply (@add_then_remove basic_builtins); [by vm_compute| |by vm_compute].
  apply (bool_decide_unpack _). vm_compute. exact I.
Defined.

Lemma list_words_edge_limits_witness :
  @list_words basic_builtins scenario_file (Some (-3)%Z)
  = if decide ((-3)%Z = 0%Z) then [LineNoWords]
    else @list_words basic_builtins scenario_file None.
Proof. apply (@list_words_edge_limits basic_builtins). lia. Defined.

Lemma list_words_prefix_witness :
  @list_words basic_builtins scenario_file (Some 2%Z)
    = LineWord <$> take (Z.to_nat 2) (@get_nouns basic_builtins scenario_file)
  ∧ length (@list_words basic_builtins scenario_file (Some 2%Z))
    = Z.to_nat 2 `min` length (@get_nouns basic_builtins scenario_file)
  ∧ @list_words basic_builtins scenario_file None
    = LineWord <$> @get_nouns basic_builtins scenario_file.
Proof.
  apply (@list_words_prefix basic_builtins); [lia | by vm_compute].
Defined.

(** ** The game: guesses, the secret, and termination *)

Section game_extra.
Context `{Builtins}.

Lemma at_round_one all_words first_guess stdin0 possible_words stdin :
  at_round all_words first_guess stdin0 1 possible_words stdin →
  possible_words = all_words.
Proof.
  inversion 1 as [|attempt pw stdin1 out pw' stdin' Hat]; [done|].
  apply at_round_inv in Hat as (_ & ? & _). lia.
Qed.

Lemma choose_guess_elem all_words first_guess stdin0 attempt possible_words stdin
    guess :
  at_round all_words first_guess stdin0 attempt possible_words stdin →
  choose_guess all_words first_guess attempt possible_words = Some guess →
  guess ∈ possible_words.
Proof.
  intros Hat. unfold choose_guess. case_decide as H1.
  - subst. apply at_round_one in Hat as ->.
    case_decide; [by intros [= <-]|]. apply list_elem_of_lookup_2.
  - apply get_best_guess_elem.
Qed.

Lemma round_Next_guess all_words first_guess attempt possible_words stdin out pw'
    stdin' :
  round all_words first_guess attempt possible_words stdin = Next out pw' stdin' →
  ∃ guess fb,
    choose_guess all_words first_guess attempt possible_words = Some guess
    ∧ filter_words possible_words guess fb = Some pw'.
Proof.
  unfold round. repeat case_decide; try done.
  - by destruct (possible_words !! 0).
  - destruct (choose_guess _ _ _ _) as [guess|]; [|done].
    destruct (get_feedback_interactive guess stdin) as [[fb stdin1]|]; [|done].
    case_decide; [done|].
    destruct (filter_words possible_words guess fb) as [pw1|] eqn:Hf; [|done].
    intros [= _ <- _]. by exists guess, fb.
Qed.

(** X18. Every round that goes on has guessed one of its candidates and
    dropped it: the candidates that remain are a subsequence of the
    previous ones, strictly fewer, and no later guess can repeat it. *)
Theorem round_shrinks all_words first_guess stdin0 attempt possible_words stdin
    out pw' stdin' :
  at_round all_words first_guess stdin0 attempt possible_words stdin →
  round all_words first_guess attempt possible_words stdin = Next out pw' stdin' →
  ∃ guess, choose_guess all_words first_guess attempt possible_words = Some guess
    ∧ guess ∈ possible_words ∧ (guess ∉ pw')
    ∧ pw' `sublist_of` possible_words
    ∧ length pw' < length possible_words.
Proof.
  intros Hat (guess & fb & Hguess & Hfilter)%round_Next_guess.
  exists guess. split; [done|].
  pose proof (choose_guess_elem _ _ _ _ _ _ _ Hat Hguess) as Hin.
  apply filter_words_Some in Hfilter as (rc & _ & ->).
  assert (keep_word rc guess fb guess ≠ Some true) as Hdrop.
  { unfold keep_word. by rewrite decide_True. }
  split; [done|]. split; [|split].
  - by intros [? _]%list_elem_of_filter.
  - apply sublist_filter.
  - by eapply length_filter_lt.
Qed.

Lemma pattern_str_all_correct p : pattern_str p = all_correct → p = (2, 2, 2, 2, 2)%Z.
Proof.
  assert (∀ z, digit z = c2 → z = 2%Z) as Hdigit.
  { intros z. unfold digit, c2. lia. }
  destruct p as [[[[f0 f1] f2] f3] f4]. unfold pattern_str, all_correct. simpl.
  intros [= ->%Hdigit ->%Hdigit ->%Hdigit ->%Hdigit ->%Hdigit]. done.
Qed.

(** X19. Truthful answers never lose the secret: in a round the loop
    reaches, on a dictionary of words and with the secret among the
    candidates, if the player answers the guess with the pattern the
    simulator computes against the secret, the round either stops on
    reporting the secret as solved or goes on with the secret still among
    the candidates. *)
Theorem round_keeps_secret all_words first_guess stdin0 attempt possible_words
    stdin secret guess p stdin' :
  Forall is_word all_words →
  at_round all_words first_guess stdin0 attempt possible_words stdin →
  secret ∈ possible_words →
  choose_guess all_words first_guess attempt possible_words = Some guess →
  simulate guess secret = Some p →
  get_feedback_interactive guess stdin = Some (pattern_str p, stdin') →
  match round all_words first_guess attempt possible_words stdin with
  | Stop out => last out = Some (Solved secret)
  | Next out pw' _ => secret ∈ pw'
  | Crash _ => False
  end.
Proof.
  intros Hall Hat Hsecret Hguess Hp Hfb.
  destruct (at_round_inv _ _ _ _ _ _ Hat) as (Hsub & _ & _).
  assert (Forall is_word possible_words) as Hpw.
  { rewrite Forall_forall in Hall |- *. intros w Hw. apply Hall.
    by eapply sublist_subseteq. }
  assert (is_word secret) as Hs by (rewrite Forall_forall in Hpw; by apply Hpw).
  unfold round. destruct possible_words as [|w0 [|w1 rest]] eqn:Hpweq.
  - by apply elem_of_nil in Hsecret.
  - apply list_elem_of_singleton in Hsecret as ->. done.
  - rewrite <-Hpweq in *.
    assert (2 ≤ length possible_words) as Hlen by (rewrite Hpweq; simpl; lia).
    rewrite !decide_False by lia. rewrite Hguess, Hfb.
    destruct (choose_guess_word all_words first_guess attempt possible_words)
      as (guess' & Hguess' & Hword); [done..|].
    assert (guess' = guess) as -> by congruence.
    case_decide as Hall_correct.
    + apply pattern_str_all_correct in Hall_correct as ->.
      by apply all_correct_equal in Hp as ->.
    + assert (secret ≠ guess) as Hne.
      { intros ->. apply Hall_correct.
        assert (simulate guess guess = Some (2, 2, 2, 2, 2)%Z) as Hself.
        { rewrite simulate_refines by done. unfold two_pass.
          rewrite leftover_pass_self. unfold is_word in Hs. by rewrite Hs. }
        rewrite Hself in Hp. by injection Hp as <-. }
      destruct (secret_survives possible_words guess secret p)
        as (res & -> & Hin); done.
Qed.

Lemma get_feedback_answers guess stdin :
  1 ≤ answers stdin →
  ∃ fb stdin', get_feedback_interactive guess stdin = Some (fb, stdin')
    ∧ length fb = 5 ∧ answers stdin = S (answers stdin').
Proof.
  unfold answers. induction stdin as [|line stdin IH]; simpl; [lia|].
  rewrite filter_cons. case_decide as Hvalid.
  - intros _. rewrite bool_decide_eq_false_2.
    + exists (strip line), stdin. split; [done|]. by destruct Hvalid.
    + destruct Hvalid as [Hlen Hall]. intros [?|Hex]; [done|].
      apply Exists_exists in Hex as (ch & Hch & Hnin).
      rewrite Forall_forall in Hall. by apply Hnin, Hall.
  - intros Hrest. rewrite bool_decide_eq_true_2.
    + by apply IH.
    + destruct (decide (length (strip line) = 5)) as [Hlen|]; [|by left].
      right. apply not_Forall_Exists; [apply _|]. intros Hall. by apply Hvalid.
Qed.

Lemma round_no_crash all_words first_guess attempt possible_words stdin :
  Forall is_word all_words → possible_words `sublist_of` all_words →
  1 ≤ answers stdin →
  match round all_words first_guess attempt possible_words stdin with
  | Stop _ => True
  | Next _ pw' stdin' =>
      pw' `sublist_of` all_words ∧ answers stdin ≤ S (answers stdin')
  | Crash _ => False
  end.
Proof.
  intros Hall Hsub Hans. unfold round.
  destruct possible_words as [|w0 [|w1 rest]] eqn:Hpweq; [done..|].
  rewrite <-Hpweq in *.
  assert (2 ≤ length possible_words) as Hlen by (rewrite Hpweq; simpl; lia).
  rewrite !decide_False by lia.
  destruct (choose_guess_word all_words first_guess attempt possible_words)
    as (guess & -> & Hword); [done..|].
  destruct (get_feedback_answers guess stdin Hans) as (fb & stdin' & -> & Hfb & Hrest).
  case_decide; [done|].
  destruct (filter_words_spec possible_words guess fb) as (pw' & -> & Hsub' & _);
    [|done..|].
  { rewrite Forall_forall in Hall |- *. intros w Hw. apply Hall.
    by eapply sublist_subseteq. }
  split; [by etrans|lia].
Qed.

Lemma game_loop_no_crash all_words first_guess attempts :
  ∀ possible_words stdin,
  Forall is_word all_words → possible_words `sublist_of` all_words →
  length attempts ≤ answers stdin →
  (game_loop all_words first_guess attempts possible_words stdin).2 = Returned.
Proof.
  induction attempts as [|attempt later IH]; intros pw stdin Hall Hsub Hans;
    [done|].
  simpl in Hans. cbn [game_loop].
  pose proof (round_no_crash all_words first_guess attempt pw stdin Hall Hsub)
    as Hround.
  destruct (round all_words first_guess attempt pw stdin)
    as [out|out|out pw' stdin']; [done|by destruct Hround; lia|].
  destruct Hround as [Hsub' Hans']; [lia|].
  specialize (IH pw' stdin' Hall Hsub').
  destruct (game_loop all_words first_guess later pw' stdin') as [out' e].
  simpl in *. apply IH. lia.
Qed.

(** X20. No crash: on a dictionary of words, a game whose input holds at
    least six acceptable answers always ends by returning, never by an
    uncaught exception. *)
Theorem solve_wordle_returns path first_guess stdin :
  Forall is_word (get_nouns path) → 6 ≤ answers stdin →
  (solve_wordle path first_guess stdin).2 = Returned.
Proof.
  intros Hall Hans. unfold solve_wordle. case_decide; [done|].
  by apply game_loop_no_crash.
Qed.

End game_extra.

Lemma scenario_round_one :
  @at_round basic_builtins (@get_nouns basic_builtins scenario_file)
    (@normalize_word basic_builtins (utf8 "огонь"))
    [utf8 "20000"; utf8 "22222"] 1 (@get_nouns basic_builtins scenario_file)
    [utf8 "20000"; utf8 "22222"].
Proof. apply at_round_first. by vm_compute. Defined.

Lemma round_shrinks_witness :
  ∃ guess,
    @choose_guess (@get_nouns basic_builtins scenario_file)
      (@normalize_word basic_builtins (utf8 "огонь")) 1
      (@get_nouns basic_builtins scenario_file) = Some guess
    ∧ guess ∈ @get_nouns basic_builtins scenario_file
    ∧ (guess ∉ [utf8 "опера"])
    ∧ [utf8 "опера"] `sublist_of` @get_nouns basic_builtins scenario_file
    ∧ length [utf8 "опера"] < length (@get_nouns basic_builtins scenario_file).
Proof.
  apply (@round_shrinks basic_builtins) with
    (stdin0 := [utf8 "20000"; utf8 "22222"]) (stdin := [utf8 "20000"; utf8 "22222"])
    (out := [Attempt 1 (utf8 "огонь"); Feedback (utf8 "огонь") (utf8 "20000");
             Remaining 1])
    (stdin' := [utf8 "22222"]);
    [exact scenario_round_one | by vm_compute].
Defined.

Lemma round_keeps_secret_witness :
  match @round basic_builtins (@get_nouns basic_builtins scenario_file)
          (@normalize_word basic_builtins (utf8 "огонь")) 1
          (@get_nouns basic_builtins scenario_file) [utf8 "20000"; utf8 "22222"]
  with
  | Stop out => last out = Some (Solved (utf8 "опера"))
  | Next out pw' _ => utf8 "опера" ∈ pw'
  | Crash _ => False
  end.
Proof.
  apply (@round_keeps_secret basic_builtins) with
    (stdin0 := [utf8 "20000"; utf8 "22222"]) (guess := utf8 "огонь")
    (p := (2, 0, 0, 0, 0)%Z) (stdin' := [utf8 "22222"]).
  - vm_compute. repeat constructor.
  - exact scenario_round_one.
  - apply (bool_decide_unpack _). vm_compute. exact I.
  - by vm_compute.
  - by vm_compute.
  - by vm_compute.
Defined.

Lemma solve_wordle_returns_witness :
  (@solve_wordle basic_builtins scenario_file (utf8 "огонь")
     (replicate 6 (utf8 "00000"))).2 = Returned.
Proof.
  apply (@solve_wordle_returns basic_builtins).
  - vm_compute. repeat constructor.
  - vm_compute. lia.
Defined.

(** ** Words that are too short *)

Lemma setitem_length {A} (l l' : list A) i x :
  setitem l i x = Some l' → length l' = length l.
Proof. unfold setitem. case_decide; [|done]. intros [= <-]. apply length_insert. Qed.

Lemma exact_step_lengths i st st' :
  exact_step i st = Some st' →
  length (st_word_letters st') = length (st_word_letters st)
  ∧ length (st_target_letters st') = length (st_target_letters st).
Proof.
  unfold exact_step.
  destruct (st_word_letters st !! i) as [w|]; [|done]. simpl.
  destruct (st_target_letters st !! i) as [t|]; [|done]. simpl.
  case_decide; [|by intros [= <-]].
  destruct (setitem (st_feedback st) i _) as [fb|]; [|done]. simpl.
  destruct (setitem (st_target_letters st) i _) as [tl|] eqn:Htl; [|done]. simpl.
  destruct (setitem (st_word_letters st) i _) as [wl|] eqn:Hwl; [|done]. simpl.
  intros [= <-]. simpl. split; by eapply setitem_length.
Qed.

Lemma exact_pass_short idxs : ∀ st i,
  i ∈ idxs →
  length (st_word_letters st) ≤ i ∨ length (st_target_letters st) ≤ i →
  for_each exact_step idxs st = None.
Proof.
  induction idxs as [|j idxs IH]; intros st i Hi Hshort; [by apply elem_of_nil in Hi|].
  simpl. destruct (exact_step j st) as [st'|] eqn:Hstep; [|done]. simpl.
  apply elem_of_cons in Hi as [->|Hi].
  - exfalso. unfold exact_step in Hstep. destruct Hshort as [Hs|Hs].
    + by rewrite (lookup_ge_None_2 _ _ Hs) in Hstep.
    + destruct (st_word_letters st !! j); [|done]. simpl in Hstep.
      by rewrite (lookup_ge_None_2 _ _ Hs) in Hstep.
  - destruct (exact_step_lengths _ _ _ Hstep) as [Hw Ht].
    apply (IH st' i Hi). by rewrite Hw, Ht.
Qed.

Lemma simulate_short word target :
  length word < 5 ∨ length target < 5 → simulate word target = None.
Proof.
  intros Hshort. unfold simulate.
  rewrite (exact_pass_short range5 _ 4); [done|by apply elem_of_range5; lia|].
  simpl. rewrite !length_fmap. lia.
Qed.

Lemma for_each_None {A S} (body : A → S → option S) xs x :
  x ∈ xs → (∀ s, body x s = None) → ∀ s, for_each body xs s = None.
Proof.
  intros Hx Hnone. induction xs as [|y xs IH]; intros s; [by apply elem_of_nil in Hx|].
  simpl. apply elem_of_cons in Hx as [<-|Hx]; [by rewrite Hnone|].
  destruct (body y s); [by apply IH|done].
Qed.

(** X21. A word of fewer than five letters makes the simulator raise, and
    with it the scoring of any list that meets it: as the guess against any
    non-empty list, or as one of the targets. *)
Theorem evaluate_word_short word pool target :
  target ∈ pool → length word < 5 ∨ length target < 5 →
  simulate word target = None ∧ evaluate_word word pool = None.
Proof.
  intros Hin Hshort. pose proof (simulate_short word target Hshort) as Hsim.
  split; [done|]. unfold evaluate_word.
  rewrite (for_each_None (tally word) pool target Hin); [done|].
  intros m. unfold tally. by rewrite Hsim.
Qed.

Lemma evaluate_word_short_witness :
  simulate (utf8 "опер") (utf8 "осень") = None
  ∧ evaluate_word (utf8 "опер") scenario_words = None.
Proof.
  apply evaluate_word_short; [|left; simpl; lia].
  apply (bool_decide_unpack _). vm_compute. exact I.
Defined.

(** ** The alphabet of the dictionary *)

Lemma elem_of_NORMALIZED_RUSSIAN ch :
  ch ∈ NORMALIZED_RUSSIAN → (1072 ≤ ch ≤ 1103)%N.
Proof.
  unfold NORMALIZED_RUSSIAN. rewrite elem_of_list_to_set.
  set (l := utf8 _). vm_compute in l. subst l. intros Hch.
  repeat (apply elem_of_cons in Hch as [->|Hch]; [lia|]).
  by apply elem_of_nil in Hch.
Qed.

(** X22. Every word of the loaded dictionary is non-empty, and normalizing
    it again gives a string that the pattern matches and whose characters
    are all among the 32 letters а to я (ё is not one of them). *)
Theorem get_nouns_alphabet `{Builtins} path w :
  w ∈ get_nouns path →
  w ≠ []
  ∧ CYRILLIC_5_RE (normalize_word w) = true
  ∧ Forall (λ ch, (1072 ≤ ch ≤ 1103)%N) (normalize_word w).
Proof.
  intros Hvalid%get_nouns_valid. unfold is_valid_five_letter_word in Hvalid.
  case_decide as Hne; [done|]. split; [done|].
  destruct (CYRILLIC_5_RE (normalize_word w)); [|done]. split; [done|].
  simpl in Hvalid. apply bool_decide_eq_true in Hvalid.
  eapply Forall_impl; [exact Hvalid|]. apply elem_of_NORMALIZED_RUSSIAN.
Qed.

Lemma get_nouns_alphabet_witness :
  utf8 "опера" ≠ []
  ∧ @CYRILLIC_5_RE basic_builtins (@normalize_word basic_builtins (utf8 "опера"))
    = true
  ∧ Forall (λ ch, (1072 ≤ ch ≤ 1103)%N)
      (@normalize_word basic_builtins (utf8 "опера")).
Proof.
  apply (@get_nouns_alphabet basic_builtins scenario_file).
  apply (bool_decide_unpack _). vm_compute. exact I.
Defined.
